(** * The wallet manager of evt's wallet plugin

    A shallow embedding of [plugins/wallet_plugin/wallet_manager.cpp] and the
    properties of its session time-out, its registry of wallets and its
    signing scan.

    The manager is a C++ object whose methods mutate it, call virtual methods
    of the wallets it owns, read the system clock, touch the wallet directory
    and throw.  It is embedded as a state-and-exception monad over a [world]
    that holds the manager's members together with the parts of the
    environment the methods reach: the wallet files, the clock, the source of
    fresh private keys, and a log of the calls made on wallets and on the file
    system.  The constructor, the destructor and [initialize_lock], which deal
    with the platform wallet and the lock file of the directory, are left
    out. *)

From stdpp Require Import base decidable option list gmap sets strings.
From Stdlib Require Import ZArith Ascii String.

Local Open Scope Z_scope.

(** ** Values the manager never looks into *)

(** Keys, signatures, digests and transactions come from fc::crypto and from
    the chain library.  The manager stores, compares and forwards them; the
    functions it calls on them are the last three fields. *)
Class chain_types := ChainTypes {
  public_key_type : Type;
  private_key_type : Type;
  signature_type : Type;
  digest_type : Type;
  chain_id_type : Type;
  transaction : Type;
  public_key_eq_dec :: EqDecision public_key_type;
  public_key_countable :: Countable public_key_type;
  signature_eq_dec :: EqDecision signature_type;
  signature_countable :: Countable signature_type;
  (** [string(key)] in [gen_password] *)
  private_key_to_string : private_key_type → string;
  (** [private_key_type::sign] on a chain id, in [get_my_signatures] *)
  private_key_sign : private_key_type → chain_id_type → signature_type;
  (** [signed_transaction::sig_digest(chain_id)], as a function of the
      transaction and of the signatures it carries when it is called *)
  sig_digest : transaction → list signature_type → chain_id_type → digest_type;
}.

(** [chain::signed_transaction]: a transaction and its vector of signatures. *)
Record signed_transaction `{chain_types} := SignedTransaction {
  trx : transaction;
  signatures : list signature_type;
}.

(** ** Exceptions and outcomes *)

(** The exception classes the manager throws, under their names in the
    source.  The spec calls them InvalidName ([wallet_exception]),
    WalletAlreadyExists, WalletNonexistent, WalletLocked and AllWalletsLocked
    (both [wallet_locked_exception]), WalletAlreadyUnlocked, BadPassword,
    MissingPublicKey, NoWalletsAvailable and TimeoutOverflow.
    [std_out_of_range] is what [std::map::at] throws on an absent key and
    [fc_exception] what [FC_THROW] throws. *)
Inductive exn `{chain_types} :=
| wallet_exception
| wallet_exist_exception
| wallet_nonexistent_exception
| wallet_locked_exception
| wallet_unlocked_exception
| wallet_invalid_password_exception
| wallet_missing_pub_key_exception (k : public_key_type)
| wallet_not_available_exception
| invalid_lock_timeout_exception
| std_out_of_range
| fc_exception.

Inductive outcome `{chain_types} (A : Type) :=
| Return (a : A)
| Throw (e : exn).
Arguments Return {_ _} a.
Arguments Throw {_ _} e.

(** ** The wallet capability *)

Module wallet_api.

(** Modelled from the spec: the classes [wallet_api] and [soft_wallet]
    (wallet.hpp, not among the sources).  One field per operation of the
    wallet capability of the spec, section 4.1.  A method that mutates the
    wallet returns the wallet it leaves behind, also when it throws; the
    observers are functions of the wallet.  [W] is the type of wallets and
    [F] the type of what a wallet file holds. *)
Class ops `{chain_types} (W F : Type) := Ops {
  (** [soft_wallet(wallet_data())], a wallet over empty data *)
  make : W;
  set_wallet_filename : string → W → W;
  is_locked : W → bool;
  lock : W → W;
  unlock : string → W → outcome unit * W;
  check_password : string → W → outcome unit;
  set_password : string → W → outcome unit * W;
  list_keys : W → list (public_key_type * private_key_type);
  list_public_keys : W → gset public_key_type;
  import_key : string → W → outcome bool * W;
  remove_key : string → W → outcome bool * W;
  create_key : string → W → outcome string * W;
  try_sign_digest : digest_type → public_key_type → W → option signature_type;
  (** reads the file the wallet is bound to; [false] when there is none *)
  load_wallet_file : gmap string F → W → bool * W;
  (** writes the file the wallet is bound to *)
  save_wallet_file : W → gmap string F → gmap string F;
}.

(** Modelled from the spec: the contracts of section 4.1 that the properties
    of the manager rest on.
    - [lock()]: transitions Unlocked to Locked unconditionally;
    - [unlock(password)]: transitions Locked to Unlocked iff the password
      verifies; otherwise fails with BadPassword and the state remains Locked;
    - [check_password(password)]: verifies a passphrase, failure is a
      BadPassword condition; the passphrase a wallet is bound to is not
      changed by locking or unlocking it. *)
Class contract `{chain_types} (W F : Type) `{!ops W F} : Prop := Contract {
  lock_locked w : is_locked (lock w) = true;
  unlock_verified pw w w' :
    is_locked w = true → check_password pw w = Return () →
    unlock pw w = (Return (), w') → is_locked w' = false;
  unlock_returns pw w :
    is_locked w = true → check_password pw w = Return () →
    (unlock pw w).1 = Return ();
  unlock_rejected pw w :
    is_locked w = true → check_password pw w ≠ Return () →
    (unlock pw w).1 = Throw wallet_invalid_password_exception ∧
    is_locked (unlock pw w).2 = true;
  check_password_lock pw w :
    check_password pw (lock w) = check_password pw w;
  check_password_unlock pw pw' w :
    check_password pw (unlock pw' w).2 = check_password pw w;
}.

(** Modelled from the spec: [import_key], [remove_key] and [create_key]
    mutate the key set (section 4.1); they leave the lock state alone. *)
Class key_contract `{chain_types} (W F : Type) `{!ops W F} : Prop := KeyContract {
  import_key_locked k w : is_locked (import_key k w).2 = is_locked w;
  remove_key_locked k w : is_locked (remove_key k w).2 = is_locked w;
  create_key_locked t w : is_locked (create_key t w).2 = is_locked w;
}.

End wallet_api.

(** ** Strings and paths *)

(** [boost::algorithm::is_alnum()] in the classic locale: an ASCII letter or
    digit. *)
Definition is_alnum (c : ascii) : bool :=
  let n := nat_of_ascii c in
  ((48 <=? n) && (n <=? 57) || (65 <=? n) && (n <=? 90) ||
   (97 <=? n) && (n <=? 122))%nat.

(** [boost::algorithm::is_any_of(set)] *)
Definition is_any_of (set : string) (c : ascii) : bool :=
  existsb (Ascii.eqb c) (list_ascii_of_string set).

Definition is_separator (c : ascii) : bool := Ascii.eqb c "/".

(** The characters after the last separator of a path. *)
Fixpoint last_component (cs : list ascii) : list ascii :=
  match cs with
  | [] => []
  | c :: rest =>
      if existsb is_separator rest then last_component rest
      else if is_separator c then rest else c :: rest
  end.

(** [boost::filesystem::path(p).filename().string()] for a POSIX path: empty
    for the empty path, the root for a path of separators only, a dot for a
    path that ends in a separator, and the last component otherwise. *)
Definition path_filename (p : string) : string :=
  let cs := list_ascii_of_string p in
  match cs with
  | [] => ""
  | _ =>
      if forallb is_separator cs then "/"
      else match last_component cs with
           | [] => "."
           | f => string_of_list_ascii f
           end
  end.

(** [dir / leaf] of [boost::filesystem::path]: a separator is put between
    the two unless [dir] is empty or ends in one. *)
Definition path_append (dir leaf : string) : string :=
  match rev (list_ascii_of_string dir) with
  | [] => leaf
  | c :: _ => if is_separator c then dir +:+ leaf else dir +:+ "/" +:+ leaf
  end.

(** [boost::to_upper_copy] in the classic locale. *)
Definition to_upper_char (c : ascii) : ascii :=
  let n := nat_of_ascii c in
  if ((97 <=? n) && (n <=? 122))%nat then ascii_of_nat (n - 32) else c.

Definition to_upper_copy (s : string) : string :=
  string_of_list_ascii (to_upper_char <$> list_ascii_of_string s).

Definition file_ext : string := ".wallet".
Definition password_prefix : string := "PW".

Definition valid_filename (name : string) : bool :=
  if String.eqb name "" then false
  else if existsb (λ c, negb (is_alnum c) && negb (is_any_of "._-" c))
            (list_ascii_of_string name) then false
  else String.eqb (path_filename name) name.

(** The letters, the digits, and the dot, the underscore and the hyphen. *)
Definition name_alphabet : string :=
  "ABCDEFGHIJKLMNOPQRSTUVWXYZabcdefghijklmnopqrstuvwxyz0123456789._-".

Definition slash : ascii := "/".
Definition backslash : ascii := ascii_of_nat 92.

(** ** Time *)

(** [timepoint_t] is a time point of [std::chrono::system_clock] and
    [timeout] a [std::chrono::seconds]; both count in a signed 64-bit integer.
    The clock is taken to tick in nanoseconds. *)
Definition system_clock_period : Z := 1000000000.

Definition int64_wrap (z : Z) : Z := (z + 2 ^ 63) mod 2 ^ 64 - 2 ^ 63.

(** [timepoint_t::max()], the value that disables the time-out *)
Definition timepoint_max : Z := 2 ^ 63 - 1.

(** [now + timeout], in ticks, with the wrap-around of the 64-bit count *)
Definition time_plus (now timeout : Z) : Z :=
  int64_wrap (now + timeout * system_clock_period).

(** ** The manager *)

Module wallet_manager.

Section definitions.
Context `{chain_types} {W F : Type} `{!wallet_api.ops W F}.

(** What the log records: the calls on a wallet that may change it or that
    ask it for a signature, under the name the wallet has in the manager, and
    the accesses to the wallet directory. *)
Inductive event :=
| ev_lock (name : string)
| ev_unlock (name password : string)
| ev_set_password (name : string)
| ev_import_key (name : string)
| ev_remove_key (name : string)
| ev_create_key (name : string)
| ev_try_sign_digest (name : string) (d : digest_type) (k : public_key_type)
| ev_exists (path : string)
| ev_load (path : string)
| ev_save (path : string).

(** The members of [wallet_manager] that the methods use ([wallets],
    [timeout], [timeout_time], [dir]) and the environment around them.

    [wallets] lists the entries of the registry in the order in which the
    methods iterate over it.  [clock] gives the successive readings of
    [system_clock::now()] and [reads] counts those taken; [entropy] and
    [draws] do the same for [private_key_type::generate()]. *)
Record world := World {
  wallets : list (string * W);
  timeout : Z;
  timeout_time : Z;
  dir : string;
  files : gmap string F;
  clock : nat → Z;
  reads : nat;
  entropy : nat → private_key_type;
  draws : nat;
  log : list event;
}.

Definition with_wallets (ws : list (string * W)) (σ : world) : world :=
  World ws (timeout σ) (timeout_time σ) (dir σ) (files σ) (clock σ) (reads σ)
        (entropy σ) (draws σ) (log σ).
Definition with_timeout (t : Z) (σ : world) : world :=
  World (wallets σ) t (timeout_time σ) (dir σ) (files σ) (clock σ) (reads σ)
        (entropy σ) (draws σ) (log σ).
Definition with_timeout_time (t : Z) (σ : world) : world :=
  World (wallets σ) (timeout σ) t (dir σ) (files σ) (clock σ) (reads σ)
        (entropy σ) (draws σ) (log σ).
Definition with_files (fs : gmap string F) (σ : world) : world :=
  World (wallets σ) (timeout σ) (timeout_time σ) (dir σ) fs (clock σ) (reads σ)
        (entropy σ) (draws σ) (log σ).
Definition with_reads (n : nat) (σ : world) : world :=
  World (wallets σ) (timeout σ) (timeout_time σ) (dir σ) (files σ) (clock σ) n
        (entropy σ) (draws σ) (log σ).
Definition with_draws (n : nat) (σ : world) : world :=
  World (wallets σ) (timeout σ) (timeout_time σ) (dir σ) (files σ) (clock σ)
        (reads σ) (entropy σ) n (log σ).
Definition with_log (l : list event) (σ : world) : world :=
  World (wallets σ) (timeout σ) (timeout_time σ) (dir σ) (files σ) (clock σ)
        (reads σ) (entropy σ) (draws σ) l.

(** *** The monad of the methods

    A method runs from a world to an outcome and a world: what it changed
    before throwing stays changed. *)
Definition M (A : Type) : Type := world → outcome A * world.

Global Instance M_ret : MRet M := λ A a σ, (Return a, σ).
Global Instance M_bind : MBind M := λ A B f m σ,
  match m σ with
  | (Return a, σ') => f a σ'
  | (Throw e, σ') => (Throw e, σ')
  end.

Definition throw {A} (e : exn) : M A := λ σ, (Throw e, σ).
Definition gets {A} (f : world → A) : M A := λ σ, (Return (f σ), σ).
Definition modify (f : world → world) : M unit := λ σ, (Return (), f σ).
Definition tell (e : event) : M unit := modify (λ σ, with_log (log σ ++ [e]) σ).

(** [EVT_ASSERT(cond, exception, ...)] *)
Definition EVT_ASSERT (cond : bool) (e : exn) : M unit :=
  if cond then mret () else throw e.

(** [std::chrono::system_clock::now()] *)
Definition system_clock_now : M Z := λ σ,
  (Return (clock σ (reads σ)), with_reads (S (reads σ)) σ).

(** [private_key_type::generate()] *)
Definition generate : M private_key_type := λ σ,
  (Return (entropy σ (draws σ)), with_draws (S (draws σ)) σ).

(** [fc::exists(path)] *)
Definition fc_exists (path : string) : M bool :=
  tell (ev_exists path);;
  fs ← gets files;
  mret (bool_decide (is_Some (fs !! path))).

(** *** The registry *)

(** [wallets.find(name)], [wallets.count(name)] and [wallets.at(name)] *)
Fixpoint find (name : string) (ws : list (string * W)) : option W :=
  match ws with
  | [] => None
  | (n, w) :: rest => if decide (n = name) then Some w else find name rest
  end.

(** [wallets.erase(wallets.find(name))] *)
Definition erase (name : string) (ws : list (string * W)) : list (string * W) :=
  filter (λ nw, nw.1 ≠ name) ws.

(** The declaration of [wallets] (wallet_manager.hpp) is not among the
    sources.  The methods use it as a map keyed by the name of the wallet:
    through [find], [count], [at], [erase] of the iterator found and
    [emplace(name, wallet)], and the comment before [wallets.find] in [create]
    and in [open] calls it a map.  Such a map, [std::map], holds one entry
    for a key and is iterated in the ascending order of the keys, whatever
    the order in which they were inserted; the keys are strings, which compare
    character by character, as [String.compare] does.

    [insert_entry] puts an entry before the first entry with a greater name;
    [wallets.emplace(name, wallet)] does that for a new name, and it stores
    nothing under a name that is taken. *)
Fixpoint insert_entry (name : string) (w : W) (ws : list (string * W))
  : list (string * W) :=
  match ws with
  | [] => [(name, w)]
  | (n, w0) :: rest =>
      if String.ltb name n then (name, w) :: (n, w0) :: rest
      else (n, w0) :: insert_entry name w rest
  end.

Definition emplace (name : string) (w : W) (ws : list (string * W))
  : list (string * W) :=
  match find name ws with
  | Some _ => ws
  | None => insert_entry name w ws
  end.

(** The wallet behind [wallets.at(name)] after a method has mutated it. *)
Fixpoint replace (name : string) (w' : W) (ws : list (string * W))
  : list (string * W) :=
  match ws with
  | [] => []
  | (n, w) :: rest =>
      if decide (n = name) then (n, w') :: rest
      else (n, w) :: replace name w' rest
  end.

(** A call of a mutating method on a wallet the caller holds: it is logged,
    and the wallet is handed back unless the method throws. *)
Definition call {A} (ev : event) (r : outcome A * W) : M (A * W) :=
  tell ev;;
  match r.1 with
  | Return a => mret (a, r.2)
  | Throw e => throw e
  end.

(** The same on the wallet registered under [name]: the registry holds the
    mutated wallet, also when the method throws. *)
Definition call_at {A} (name : string) (ev : event) (r : outcome A * W) : M A :=
  tell ev;;
  modify (λ σ, with_wallets (replace name r.2 (wallets σ)) σ);;
  match r.1 with
  | Return a => mret a
  | Throw e => throw e
  end.

(** *** The methods *)

Definition gen_password : M string :=
  key ← generate;
  mret (password_prefix +:+ private_key_to_string key).

Definition set_timeout (t : Z) : M unit :=
  modify (with_timeout t);;
  now ← system_clock_now;
  timeout ← gets timeout;
  modify (with_timeout_time (time_plus now timeout));;
  timeout_time ← gets timeout_time;
  EVT_ASSERT (bool_decide (now ≤ timeout_time) && bool_decide (0 < timeout_time))
             invalid_lock_timeout_exception.

(** The loop of [lock_all]: the wallets after it and the calls it made. *)
Fixpoint lock_each (ws : list (string * W)) : list (string * W) * list event :=
  match ws with
  | [] => ([], [])
  | (n, w) :: rest =>
      let '(rest', evs) := lock_each rest in
      if wallet_api.is_locked w then ((n, w) :: rest', evs)
      else ((n, wallet_api.lock w) :: rest', ev_lock n :: evs)
  end.

Definition lock_all : M unit :=
  ws ← gets wallets;
  modify (λ σ, with_log (log σ ++ (lock_each ws).2)
                 (with_wallets (lock_each ws).1 σ)).

Definition check_timeout : M unit :=
  timeout_time ← gets timeout_time;
  if bool_decide (timeout_time ≠ timepoint_max) then
    now ← system_clock_now;
    (if bool_decide (timeout_time ≤ now) then lock_all else mret ());;
    timeout ← gets timeout;
    modify (with_timeout_time (time_plus now timeout))
  else mret ().

(** [wallets.erase] of an entry under [name], if any, then [wallets.emplace] *)
Definition register (name : string) (w : W) : M unit :=
  modify (λ σ, with_wallets (emplace name w (erase name (wallets σ))) σ).

Definition create (name : string) : M string :=
  check_timeout;;
  EVT_ASSERT (valid_filename name) wallet_exception;;
  dir ← gets dir;
  let wallet_filename := path_append dir (name +:+ file_ext) in
  found ← fc_exists wallet_filename;
  if found : bool then throw wallet_exist_exception
  else
    password ← gen_password;
    let wallet := wallet_api.make in
    '(_, wallet) ← call (ev_set_password name)
                        (wallet_api.set_password password wallet);
    let wallet := wallet_api.set_wallet_filename wallet_filename wallet in
    '(_, wallet) ← call (ev_unlock name password)
                        (wallet_api.unlock password wallet);
    tell (ev_lock name);;
    let wallet := wallet_api.lock wallet in
    '(_, wallet) ← call (ev_unlock name password)
                        (wallet_api.unlock password wallet);
    tell (ev_save wallet_filename);;
    modify (λ σ, with_files (wallet_api.save_wallet_file wallet (files σ)) σ);;
    register name wallet;;
    mret password.

Definition open (name : string) : M unit :=
  check_timeout;;
  EVT_ASSERT (valid_filename name) wallet_exception;;
  dir ← gets dir;
  let wallet_filename := path_append dir (name +:+ file_ext) in
  let wallet := wallet_api.set_wallet_filename wallet_filename wallet_api.make in
  tell (ev_load wallet_filename);;
  fs ← gets files;
  let loaded := wallet_api.load_wallet_file fs wallet in
  if negb loaded.1 then throw wallet_nonexistent_exception
  else register name loaded.2.

Definition list_wallets : M (list string) :=
  check_timeout;;
  ws ← gets wallets;
  mret ((λ i : string * W,
           if wallet_api.is_locked i.2 then i.1 else i.1 +:+ " *") <$> ws).

Definition list_keys (name pw : string)
  : M (list (public_key_type * private_key_type)) :=
  check_timeout;;
  ws ← gets wallets;
  match find name ws with
  | None => throw wallet_nonexistent_exception
  | Some w =>
      if wallet_api.is_locked w then throw wallet_locked_exception
      else match wallet_api.check_password pw w with
           | Throw e => throw e
           | Return _ => mret (wallet_api.list_keys w)
           end
  end.

(** The loop of [get_public_keys], from [result] and [is_all_wallet_locked] *)
Fixpoint merge_public_keys (ws : list (string * W))
    (acc : gset public_key_type * bool) : gset public_key_type * bool :=
  match ws with
  | [] => acc
  | (_, w) :: rest =>
      let result :=
        if negb (wallet_api.is_locked w)
        then acc.1 ∪ wallet_api.list_public_keys w else acc.1 in
      merge_public_keys rest (result, acc.2 && wallet_api.is_locked w)
  end.

Definition get_public_keys : M (gset public_key_type) :=
  check_timeout;;
  ws ← gets wallets;
  EVT_ASSERT (negb (bool_decide (ws = []))) wallet_not_available_exception;;
  let '(result, is_all_wallet_locked) := merge_public_keys ws (∅, true) in
  EVT_ASSERT (negb is_all_wallet_locked) wallet_locked_exception;;
  mret result.

(** The loop of [get_my_signatures] *)
Fixpoint emplace_signatures (chain_id : chain_id_type) (ws : list (string * W))
    (acc : gset signature_type * bool) : gset signature_type * bool :=
  match ws with
  | [] => acc
  | (_, w) :: rest =>
      let result :=
        if negb (wallet_api.is_locked w)
        then foldl (λ r (i : public_key_type * private_key_type),
                      r ∪ {[ private_key_sign i.2 chain_id ]})
                   acc.1 (wallet_api.list_keys w)
        else acc.1 in
      emplace_signatures chain_id rest
        (result, acc.2 && wallet_api.is_locked w)
  end.

Definition get_my_signatures (chain_id : chain_id_type)
  : M (gset signature_type) :=
  check_timeout;;
  ws ← gets wallets;
  EVT_ASSERT (negb (bool_decide (ws = []))) wallet_not_available_exception;;
  let '(result, is_all_wallet_locked) :=
    emplace_signatures chain_id ws (∅, true) in
  EVT_ASSERT (negb is_all_wallet_locked) wallet_locked_exception;;
  mret result.

Definition lock (name : string) : M unit :=
  check_timeout;;
  ws ← gets wallets;
  match find name ws with
  | None => throw wallet_nonexistent_exception
  | Some w =>
      if wallet_api.is_locked w then mret ()
      else
        tell (ev_lock name);;
        modify (λ σ, with_wallets
                       (replace name (wallet_api.lock w) (wallets σ)) σ)
  end.

Definition unlock (name password : string) : M unit :=
  check_timeout;;
  ws ← gets wallets;
  (if bool_decide (find name ws = None) then open name else mret ());;
  ws ← gets wallets;
  match find name ws with
  | None => throw std_out_of_range
  | Some w =>
      if negb (wallet_api.is_locked w) then throw wallet_unlocked_exception
      else call_at name (ev_unlock name password)
                   (wallet_api.unlock password w)
  end.

Definition import_key (name wif_key : string) : M unit :=
  check_timeout;;
  ws ← gets wallets;
  match find name ws with
  | None => throw wallet_nonexistent_exception
  | Some w =>
      if wallet_api.is_locked w then throw wallet_locked_exception
      else
        call_at name (ev_import_key name) (wallet_api.import_key wif_key w);;
        mret ()
  end.

Definition remove_key (name password key : string) : M unit :=
  check_timeout;;
  ws ← gets wallets;
  match find name ws with
  | None => throw wallet_nonexistent_exception
  | Some w =>
      if wallet_api.is_locked w then throw wallet_locked_exception
      else match wallet_api.check_password password w with
           | Throw e => throw e
           | Return _ =>
               call_at name (ev_remove_key name)
                       (wallet_api.remove_key key w);;
               mret ()
           end
  end.

Definition create_key (name key_type : string) : M string :=
  check_timeout;;
  ws ← gets wallets;
  match find name ws with
  | None => throw wallet_nonexistent_exception
  | Some w =>
      if wallet_api.is_locked w then throw wallet_locked_exception
      else
        let upper_key_type := to_upper_copy key_type in
        call_at name (ev_create_key name)
                (wallet_api.create_key upper_key_type w)
  end.

(** The scan of the wallets for one key, in [sign_transaction] and in
    [sign_digest]: the first signature an unlocked wallet gives, if any. *)
Fixpoint scan (digest : digest_type) (pk : public_key_type)
    (ws : list (string * W)) : M (option signature_type) :=
  match ws with
  | [] => mret None
  | (n, w) :: rest =>
      if negb (wallet_api.is_locked w) then
        tell (ev_try_sign_digest n digest pk);;
        match wallet_api.try_sign_digest digest pk w with
        | Some sig => mret (Some sig)
        | None => scan digest pk rest
        end
      else scan digest pk rest
  end.

(** The loop of [sign_transaction] over the requested keys *)
Fixpoint sign_keys (id : chain_id_type) (keys : list public_key_type)
    (stxn : signed_transaction) : M signed_transaction :=
  match keys with
  | [] => mret stxn
  | pk :: keys' =>
      ws ← gets wallets;
      sig ← scan (sig_digest (trx stxn) (signatures stxn) id) pk ws;
      match sig with
      | Some sig =>
          sign_keys id keys'
            (SignedTransaction _ (trx stxn) (signatures stxn ++ [sig]))
      | None => throw (wallet_missing_pub_key_exception pk)
      end
  end.

(** [keys] lists the requested keys in the order the set is iterated. *)
Definition sign_transaction (txn : signed_transaction)
    (keys : list public_key_type) (id : chain_id_type) : M signed_transaction :=
  check_timeout;;
  sign_keys id keys txn.

Definition sign_digest (digest : digest_type) (key : public_key_type)
  : M signature_type :=
  check_timeout;;
  ws ← gets wallets;
  sig ← scan digest key ws;
  match sig with
  | Some sig => mret sig
  | None => throw (wallet_missing_pub_key_exception key)
  end.

Definition own_and_use_wallet (name : string) (wallet : W) : M unit :=
  ws ← gets wallets;
  if bool_decide (find name ws ≠ None) then throw fc_exception
  else modify (λ σ, with_wallets (emplace name wallet (wallets σ)) σ).

End definitions.

Arguments event {_}.
Arguments world {_} W F.
Arguments M {_} W F A.

(** *** Requests

    The public methods that begin with [check_timeout()], as requests a
    caller sends one after the other.  An exception goes to the caller, and
    the manager serves the next request from the state the failed one left. *)
Section requests.
Context `{chain_types} {W F : Type} `{!wallet_api.ops W F}.

Inductive request :=
| req_create (name : string)
| req_open (name : string)
| req_list_wallets
| req_list_keys (name pw : string)
| req_get_public_keys
| req_get_my_signatures (chain_id : chain_id_type)
| req_lock (name : string)
| req_unlock (name password : string)
| req_import_key (name wif_key : string)
| req_remove_key (name password key : string)
| req_create_key (name key_type : string)
| req_sign_transaction (txn : signed_transaction)
    (keys : list public_key_type) (id : chain_id_type)
| req_sign_digest (digest : digest_type) (key : public_key_type).

Definition perform (r : request) : M W F unit :=
  match r with
  | req_create name => create name;; mret ()
  | req_open name => open name
  | req_list_wallets => list_wallets;; mret ()
  | req_list_keys name pw => list_keys name pw;; mret ()
  | req_get_public_keys => get_public_keys;; mret ()
  | req_get_my_signatures chain_id => get_my_signatures chain_id;; mret ()
  | req_lock name => lock name
  | req_unlock name password => unlock name password
  | req_import_key name wif_key => import_key name wif_key
  | req_remove_key name password key => remove_key name password key
  | req_create_key name key_type => create_key name key_type;; mret ()
  | req_sign_transaction txn keys id => sign_transaction txn keys id;; mret ()
  | req_sign_digest digest key => sign_digest digest key;; mret ()
  end.

Definition serve (rs : list request) (σ : world W F) : world W F :=
  foldl (λ σ r, (perform r σ).2) σ rs.

(** The requests that themselves lock, unlock or replace the wallet
    registered under [name]. *)
Definition acts_on (name : string) (r : request) : bool :=
  match r with
  | req_create n | req_open n | req_lock n | req_unlock n _ =>
      bool_decide (n = name)
  | _ => false
  end.

(** The events of the file system. *)
Definition is_file_event (e : event) : bool :=
  match e with
  | ev_exists _ | ev_load _ | ev_save _ => true
  | _ => false
  end.

End requests.

(** *** Notions the statements use *)
Section notions.
Context `{chain_types} {W F : Type} `{!wallet_api.ops W F}.

(** A wallet that yields no signature with key [k]: it is locked, and so
    skipped, or its [try_sign_digest] returns nothing. *)
Definition gives_nothing (d : digest_type) (k : public_key_type)
    (i : string * W) : Prop :=
  wallet_api.is_locked i.2 = true ∨ wallet_api.try_sign_digest d k i.2 = None.

(** The [try_sign_digest] calls of a scan that goes through all of [ws]: one
    on each unlocked wallet, in order. *)
Definition asked (d : digest_type) (k : public_key_type)
    (ws : list (string * W)) : list event :=
  (λ i, ev_try_sign_digest i.1 d k)
    <$> filter (λ i, wallet_api.is_locked i.2 = false) ws.

(** What [lock_all] does to one wallet. *)
Definition locked_copy (w : W) : W :=
  if wallet_api.is_locked w then w else wallet_api.lock w.

(** The state in which [check_timeout()] leaves [σ]. *)
Definition checked (σ : world W F) : world W F := (check_timeout σ).2.

(** The file of the wallet [name], and the wallet [open] reads it into. *)
Definition wallet_path (name : string) (σ : world W F) : string :=
  path_append (dir σ) (name +:+ file_ext).

Definition opened (name : string) (σ : world W F) : bool * W :=
  wallet_api.load_wallet_file (files σ)
    (wallet_api.set_wallet_filename (wallet_path name σ) wallet_api.make).

(** [unlock name] looks its wallet up, in state [σ'] and as [w], in one of
    two ways: the name is registered when the time-out step is done, or it
    is not and [open name] has returned. *)
Definition looked_up (name : string) (σ σ' : world W F) (w : W) : Prop :=
  (find name (wallets (check_timeout σ).2) = Some w ∧
   σ' = (check_timeout σ).2) ∨
  (find name (wallets (check_timeout σ).2) = None ∧
   open name (check_timeout σ).2 = (Return (), σ') ∧
   find name (wallets σ') = Some w).

(** A method performs the time-out step first: it is [check_timeout()]
    followed by some computation. *)
Definition checks_first {A} (m : M W F A) : Prop :=
  ∃ rest : M W F A, ∀ σ, m σ = (check_timeout;; rest) σ.

(** [name] is registered and its wallet is unlocked. *)
Definition unlocked_at (name : string) (σ : world W F) : Prop :=
  ∃ w, find name (wallets σ) = Some w ∧ wallet_api.is_locked w = false.

(** A computation that leaves the time-out and the clock as they are, and
    the wallet [name] registered and unlocked if it was. *)
Definition frames (name : string) {A} (m : M W F A) : Prop :=
  ∀ σ, timeout (m σ).2 = timeout σ ∧ timeout_time (m σ).2 = timeout_time σ ∧
       clock (m σ).2 = clock σ ∧ reads (m σ).2 = reads σ ∧
       (unlocked_at name σ → unlocked_at name (m σ).2).

(** The state of a manager inside the sliding window: the duration is [d],
    the clock [c] has been read since reading [r0], the expiry is the last
    reading plus [d], and the wallet [name] is registered and unlocked. *)
Definition in_window (d : Z) (c : nat → Z) (r0 : nat) (name : string)
    (σ : world W F) : Prop :=
  timeout σ = d ∧ clock σ = c ∧ (r0 < reads σ)%nat ∧
  timeout_time σ = c (pred (reads σ)) + d * system_clock_period ∧
  unlocked_at name σ.

(** The readings of indices [first] to [last], the last one excluded: adding
    [d] to one does not overflow, and each comes less than [d] after the one
    before. *)
Definition small_gaps (d : Z) (c : nat → Z) (first last : nat) : Prop :=
  ∀ i, (first ≤ i)%nat → (i < last)%nat →
       0 ≤ c i ∧ c i + d * system_clock_period < timepoint_max ∧
       ((S i < last)%nat → c (S i) < c i + d * system_clock_period).

(** A computation that only reads the clock forward and that, as long as
    the gaps between the readings are small, stays inside the window. *)
Definition steady (d : Z) (c : nat → Z) (r0 : nat) (name : string)
    {A} (m : M W F A) : Prop :=
  ∀ σ, (reads σ ≤ reads (m σ).2)%nat ∧
       (in_window d c r0 name σ →
        small_gaps d c (pred (reads σ)) (reads (m σ).2) →
        in_window d c r0 name (m σ).2).

(** The time-out is on when the expiry is not the sentinel. *)
Definition enabled (σ : world W F) : Prop := timeout_time σ ≠ timepoint_max.

End notions.

(** *** The changes a request makes *)
Section footprint.
Context `{chain_types} {W F : Type} `{!wallet_api.ops W F}.

(** The kinds of change: the time-out step, an entry in the log, a private
    key drawn, a method called on the wallet registered under a name, unlocked
    ([by_call]) or locked ([by_unlock]), a wallet registered under a name, and
    a wallet file written. *)
Inductive label :=
| by_check
| by_log
| by_draw
| by_call (name : string)
| by_unlock (name : string)
| by_register (name : string)
| by_save.

Inductive change : label → world W F → world W F → Prop :=
| change_check σ : change by_check σ (checked σ)
| change_log σ l : change by_log σ (with_log l σ)
| change_draw σ : change by_draw σ (with_draws (S (draws σ)) σ)
| change_call σ name w w' :
    find name (wallets σ) = Some w → wallet_api.is_locked w = false →
    change (by_call name) σ (with_wallets (replace name w' (wallets σ)) σ)
| change_unlock σ name w w' :
    find name (wallets σ) = Some w → wallet_api.is_locked w = true →
    change (by_unlock name) σ (with_wallets (replace name w' (wallets σ)) σ)
| change_register σ name w :
    change (by_register name) σ
      (with_wallets (emplace name w (erase name (wallets σ))) σ)
| change_save σ fs : change by_save σ (with_files fs σ).

(** A sequence of changes of the kinds [allowed]. *)
Inductive changes (allowed : label → Prop) : world W F → world W F → Prop :=
| changes_refl σ : changes allowed σ σ
| changes_step l σ σ' σ'' :
    allowed l → change l σ σ' → changes allowed σ' σ'' →
    changes allowed σ σ''.

(** The kinds of change that belong to a request: every request checks the
    time-out and logs; [create] alone draws a key and writes a file; [lock]
    and the key methods call the wallet they name, and that only when it is
    unlocked; [unlock] alone calls a locked wallet; [create], [open] and
    [unlock] register the wallet they name. *)
Definition may (r : request) (l : label) : Prop :=
  match l with
  | by_check | by_log => True
  | by_draw | by_save => ∃ n, r = req_create n
  | by_call n =>
      r = req_lock n ∨ (∃ k, r = req_import_key n k) ∨
      (∃ p k, r = req_remove_key n p k) ∨ (∃ t, r = req_create_key n t)
  | by_unlock n => ∃ p, r = req_unlock n p
  | by_register n =>
      r = req_create n ∨ r = req_open n ∨ ∃ p, r = req_unlock n p
  end.

(** A computation that makes changes of the kinds [allowed] only. *)
Definition footprint (allowed : label → Prop) {A} (m : M W F A) : Prop :=
  ∀ σ, changes allowed σ (m σ).2.

(** The name a request is given, if any. *)
Definition target (r : request) : option string :=
  match r with
  | req_create n | req_open n | req_list_keys n _ | req_lock n
  | req_unlock n _ | req_import_key n _ | req_remove_key n _ _
  | req_create_key n _ => Some n
  | _ => None
  end.

(** The requests that only observe: they list, or they sign. *)
Definition observes (r : request) : bool :=
  match r with
  | req_list_wallets | req_list_keys _ _ | req_get_public_keys
  | req_get_my_signatures _ | req_sign_transaction _ _ _
  | req_sign_digest _ _ => true
  | _ => false
  end.

(** The requests that may unlock the wallet registered under [name] or
    register another one under it: [create], [open] and [unlock] of that
    name. *)
Definition reopens (name : string) (r : request) : bool :=
  match r with
  | req_create n | req_open n | req_unlock n _ => bool_decide (n = name)
  | _ => false
  end.

(** The names of the registry, in its order. *)
Definition names (σ : world W F) : list string := (wallets σ).*1.



(** The names are in ascending order, each less than the ones after it. *)
Fixpoint ascending (l : list string) : Prop :=
  match l with
  | [] => True
  | a :: rest => Forall (λ b, String.ltb a b = true) rest ∧ ascending rest
  end.

(** Every wallet of the registry is locked. *)
Definition all_locked (σ : world W F) : Prop :=
  Forall (λ i : string * W, wallet_api.is_locked i.2 = true) (wallets σ).

(** The time-out is on and the next reading of the clock is at the expiry or
    after it: the next time-out step locks the wallets. *)
Definition overdue (σ : world W F) : Prop :=
  timeout_time σ ≠ timepoint_max ∧ timeout_time σ ≤ clock σ (reads σ).

End footprint.

End wallet_manager.

(** ** A software wallet to run the manager on *)

Module soft.

(** Keys, signatures, digests, chain ids and transactions that are strings. *)

#[export] Instance types : chain_types := {|
  public_key_type := string;
  private_key_type := string;
  signature_type := string;
  digest_type := string;
  chain_id_type := string;
  transaction := string;
  private_key_to_string := λ k, k;
  private_key_sign := λ k id, k +:+ "@" +:+ id;
  sig_digest := λ t _ id, t +:+ "#" +:+ id;
|}.

(** Modelled from the spec: a wallet that meets the contracts of section 4.1
    in the simplest way.  It keeps its passphrase and its key pairs in the
    clear; its file holds both, and a wallet read from its file is locked. *)
Record wallet := Wallet {
  locked : bool;
  password : string;
  keys : list (string * string);
  filename : string;
}.

Record file := File {
  file_password : string;
  file_keys : list (string * string);
}.

Definition unlock_wallet (pw : string) (w : wallet) : outcome unit * wallet :=
  if String.eqb pw (password w)
  then (Return (), Wallet false (password w) (keys w) (filename w))
  else (Throw wallet_invalid_password_exception, w).

Definition check_password (pw : string) (w : wallet) : outcome unit :=
  if String.eqb pw (password w) then Return ()
  else Throw wallet_invalid_password_exception.

Definition private_key_of (k : string) (w : wallet) : option string :=
  snd <$> List.find (λ i, String.eqb i.1 k) (keys w).

Definition try_sign_digest (d k : string) (w : wallet) : option string :=
  if locked w then None
  else (λ priv, priv +:+ ":" +:+ d) <$> private_key_of k w.

Definition load_wallet_file (fs : gmap string file) (w : wallet)
  : bool * wallet :=
  match fs !! filename w with
  | Some f => (true, Wallet true (file_password f) (file_keys f) (filename w))
  | None => (false, w)
  end.

(** Modelled from the spec: the operations of section 4.1 on that wallet. *)
#[export] Instance ops : wallet_api.ops wallet file := {|
  wallet_api.make := Wallet true "" [] "";
  wallet_api.set_wallet_filename := λ p w,
    Wallet (locked w) (password w) (keys w) p;
  wallet_api.is_locked := locked;
  wallet_api.lock := λ w, Wallet true (password w) (keys w) (filename w);
  wallet_api.unlock := unlock_wallet;
  wallet_api.check_password := check_password;
  wallet_api.set_password := λ pw w,
    (Return (), Wallet (locked w) pw (keys w) (filename w));
  wallet_api.list_keys := keys;
  wallet_api.list_public_keys := λ w, list_to_set (keys w).*1;
  wallet_api.import_key := λ wif w,
    (Return true,
     Wallet (locked w) (password w) (keys w ++ [("EVT" +:+ wif, wif)])
            (filename w));
  wallet_api.remove_key := λ k w,
    (Return true,
     Wallet (locked w) (password w)
            (List.filter (λ i, negb (String.eqb i.1 k)) (keys w)) (filename w));
  wallet_api.create_key := λ type w,
    (Return ("EVT" +:+ type),
     Wallet (locked w) (password w) (keys w ++ [("EVT" +:+ type, type)])
            (filename w));
  wallet_api.try_sign_digest := try_sign_digest;
  wallet_api.load_wallet_file := load_wallet_file;
  wallet_api.save_wallet_file := λ w fs,
    <[filename w := File (password w) (keys w)]> fs;
|}.

(** A manager over the directory [/w] with no wallet and no wallet file,
    whose clock reads 10, 20, 30, ... seconds and whose time-out is off. *)
Definition seconds (n : Z) : Z := n * system_clock_period.

Definition fresh : wallet_manager.world wallet file := {|
  wallet_manager.wallets := [];
  wallet_manager.timeout := 2 ^ 63 - 1;
  wallet_manager.timeout_time := timepoint_max;
  wallet_manager.dir := "/w";
  wallet_manager.files := ∅;
  wallet_manager.clock := λ n, seconds (10 * (Z.of_nat n + 1));
  wallet_manager.reads := 0;
  wallet_manager.entropy := λ n, if Nat.eqb n 0 then "k0" else "k1";
  wallet_manager.draws := 0;
  wallet_manager.log := [];
|}.

(** A manager with one unlocked wallet and a time-out of five seconds whose
    expiry, at the second given, has passed when it is 5 or 6: the clock
    reads second 10 next. *)
Definition expired (at_second : Z) : wallet_manager.world wallet file :=
  wallet_manager.with_timeout_time (seconds at_second)
    (wallet_manager.with_timeout 5
       (wallet_manager.with_wallets [("a", Wallet false "pw" [] "")] fresh)).

(** The manager [expired 5] with the wallet locked and that call of [lock]
    in the log: the time-out step leaves both in the same state. *)
Definition expired_locked : wallet_manager.world wallet file :=
  wallet_manager.with_log [wallet_manager.ev_lock "a"]
    (wallet_manager.with_wallets [("a", Wallet true "pw" [] "")] (expired 5)).

(** The manager with one wallet, locked, whose time-out of five seconds
    expires at second 12, after the next reading of the clock. *)
Definition resting : wallet_manager.world wallet file :=
  wallet_manager.with_timeout_time (seconds 12)
    (wallet_manager.with_timeout 5
       (wallet_manager.with_wallets [("a", Wallet true "pw" [] "")] fresh)).

(** The manager with one wallet, unlocked, that holds no key. *)
Definition keyless : wallet_manager.world wallet file :=
  wallet_manager.with_wallets [("a", Wallet false "pw" [] "")] fresh.

(** The manager with no wallet and the file of a wallet [bob]. *)
Definition stored : wallet_manager.world wallet file :=
  wallet_manager.with_files
    {[ "/w/bob.wallet" := File "secret" [("K", "p")] ]} fresh.

(** Three requests, one of which imports a key into the wallet [a]. *)
Definition three_requests : list wallet_manager.request :=
  [wallet_manager.req_list_wallets;
   wallet_manager.req_import_key "a" "k9";
   wallet_manager.req_sign_digest ("d" : string) ("K" : string)].

(** The same manager with three wallets that all hold the public key [K],
    each with a private key of its own, in the order of their names; the
    last one is locked. *)
Definition holder (is_locked : bool) (priv : string) : wallet :=
  Wallet is_locked "pw" [("K", priv)] "".

Definition holders : wallet_manager.world wallet file :=
  wallet_manager.with_wallets
    [("a", holder false "p1"); ("b", holder false "p2");
     ("l", holder true "p0")] fresh.

(** The manager with no wallet after [own_and_use_wallet] of a wallet [b]
    and then of a wallet [a], both unlocked and both with the public key
    [K]. *)
Definition b_then_a : wallet_manager.world wallet file :=
  (wallet_manager.own_and_use_wallet "a" (holder false "p1")
     (wallet_manager.own_and_use_wallet "b" (holder false "p2") fresh).2).2.

(** The manager with three wallets that hold the public key [K], in the
    order of their names; the first one is locked. *)
Definition keyed : wallet_manager.world wallet file :=
  wallet_manager.with_wallets
    [("a", holder true "p0"); ("b", holder false "p1");
     ("c", holder false "p2")] fresh.

(** The manager with one wallet, locked, whose time-out is off. *)
Definition dormant : wallet_manager.world wallet file :=
  wallet_manager.with_wallets [("a", Wallet true "pw" [] "")] fresh.

End soft.

(** * Properties *)

Import wallet_manager.

(** ** The monad and the registry *)

Section monad.
Context `{chain_types} {W F : Type} `{!wallet_api.ops W F}.
Implicit Types (σ : world W F) (ws : list (string * W)) (name : string).

Lemma bind_Return {A B} (m : M W F A) (k : A → M W F B) σ a σ' :
  m σ = (Return a, σ') → (m ≫= k) σ = k a σ'.
Proof. intros Hm. unfold mbind, M_bind. by rewrite Hm. Qed.

Lemma bind_Throw {A B} (m : M W F A) (k : A → M W F B) σ e σ' :
  m σ = (Throw e, σ') → (m ≫= k) σ = (Throw e, σ').
Proof. intros Hm. unfold mbind, M_bind. by rewrite Hm. Qed.

Lemma bind_gets {A B} (f : world W F → A) (k : A → M W F B) σ :
  (gets f ≫= k) σ = k (f σ) σ.
Proof. reflexivity. Qed.

Lemma bind_modify {B} (f : world W F → world W F) (k : unit → M W F B) σ :
  (modify f ≫= k) σ = k () (f σ).
Proof. reflexivity. Qed.

Lemma bind_tell {B} (e : event) (k : unit → M W F B) σ :
  (tell e ≫= k) σ = k () (with_log (log σ ++ [e]) σ).
Proof. reflexivity. Qed.

Lemma with_log_same σ : with_log (log σ) σ = σ.
Proof. by destruct σ. Qed.

Lemma with_log_nil σ : with_log (log σ ++ []) σ = σ.
Proof. rewrite app_nil_r. apply with_log_same. Qed.

Lemma with_log_with_log l l' σ : with_log l (with_log l' σ) = with_log l σ.
Proof. reflexivity. Qed.

(** *** [find], [erase], [emplace], [replace] *)

Lemma find_app_None name ws ws' :
  find name ws = None → find name (ws ++ ws') = find name ws'.
Proof.
  induction ws as [|[n w] ws IH]; simpl; [done|].
  case_decide; [done|]. apply IH.
Qed.

Lemma find_app_Some name ws ws' w :
  find name ws = Some w → find name (ws ++ ws') = Some w.
Proof.
  induction ws as [|[n w0] ws IH]; simpl; [done|].
  case_decide; [done|]. apply IH.
Qed.

Lemma find_erase name ws : find name (erase name ws) = None.
Proof.
  unfold erase. induction ws as [|[n w] ws IH]; [done|].
  rewrite filter_cons. simpl. destruct (decide (n ≠ name)); simpl; [|done].
  by destruct (decide (n = name)).
Qed.

Lemma find_erase_ne name name' ws :
  name ≠ name' → find name (erase name' ws) = find name ws.
Proof.
  intros Hne. unfold erase. induction ws as [|[n w] ws IH]; [done|].
  rewrite filter_cons. simpl. destruct (decide (n ≠ name')) as [Hn|Hn]; simpl.
  - destruct (decide (n = name)); [done|]. apply IH.
  - apply dec_stable in Hn. subst n.
    destruct (decide (name' = name)); [congruence|]. apply IH.
Qed.

Lemma find_insert_entry name w ws :
  find name ws = None → find name (insert_entry name w ws) = Some w.
Proof.
  induction ws as [|[n w0] ws IH]; simpl.
  - intros _. by rewrite decide_True.
  - destruct (decide (n = name)) as [->|Hn]; [done|]. intros Hnone.
    destruct (String.ltb name n); simpl.
    + by rewrite decide_True.
    + rewrite decide_False by done. by apply IH.
Qed.

Lemma find_insert_entry_ne name name' w ws :
  name ≠ name' → find name (insert_entry name' w ws) = find name ws.
Proof.
  intros Hne. induction ws as [|[n w0] ws IH]; simpl.
  - by rewrite decide_False by done.
  - destruct (String.ltb name' n); simpl.
    + by rewrite decide_False by done.
    + destruct (decide (n = name)); [done|]. apply IH.
Qed.

Lemma find_emplace name w ws :
  find name ws = None → find name (emplace name w ws) = Some w.
Proof.
  intros Hnone. unfold emplace. rewrite Hnone. by apply find_insert_entry.
Qed.

Lemma find_emplace_ne name name' w ws :
  name ≠ name' → find name (emplace name' w ws) = find name ws.
Proof.
  intros Hne. unfold emplace. destruct (find name' ws); [done|].
  by apply find_insert_entry_ne.
Qed.

Lemma find_replace name w w' ws :
  find name ws = Some w → find name (replace name w' ws) = Some w'.
Proof.
  induction ws as [|[n w0] ws IH]; simpl; [done|].
  destruct (decide (n = name)) as [->|Hn]; simpl.
  - by rewrite decide_True.
  - rewrite decide_False by done. apply IH.
Qed.

Lemma find_replace_ne name name' w' ws :
  name ≠ name' → find name (replace name' w' ws) = find name ws.
Proof.
  intros Hne. induction ws as [|[n w0] ws IH]; simpl; [done|].
  destruct (decide (n = name')) as [->|Hn]; simpl.
  - destruct (decide (name' = name)); [congruence|done].
  - destruct (decide (n = name)); [done|]. apply IH.
Qed.

Lemma find_register name w σ :
  find name (wallets (register name w σ).2) = Some w.
Proof. simpl. apply find_emplace, find_erase. Qed.

Lemma find_register_ne name name' w σ :
  name ≠ name' →
  find name (wallets (register name' w σ).2) = find name (wallets σ).
Proof.
  intros Hne. simpl. rewrite find_emplace_ne by done.
  by apply find_erase_ne.
Qed.

End monad.

(** ** The time-out step *)

Section timeout_step.
Context `{chain_types} {W F : Type} `{!wallet_api.ops W F}.
Implicit Types (σ : world W F) (ws : list (string * W)) (name : string).

Lemma lock_each_wallets ws :
  (lock_each ws).1 = (λ i : string * W, (i.1, locked_copy i.2)) <$> ws.
Proof.
  induction ws as [|[n w] ws IH]; [done|]. simpl.
  destruct (lock_each ws) as [ws' evs]. simpl in IH. subst ws'.
  unfold locked_copy. by destruct (wallet_api.is_locked w).
Qed.

Lemma lock_each_events ws :
  (lock_each ws).2 =
  (λ i : string * W, ev_lock i.1)
    <$> filter (λ i, wallet_api.is_locked i.2 = false) ws.
Proof.
  induction ws as [|[n w] ws IH]; [done|]. simpl.
  destruct (lock_each ws) as [ws' evs]. simpl in IH. subst evs.
  rewrite filter_cons.
  destruct (wallet_api.is_locked w) eqn:Hw; simpl.
  - rewrite decide_False; [done|]. by rewrite Hw.
  - rewrite decide_True; [done|]. by rewrite Hw.
Qed.

Lemma find_lock_each name ws :
  find name (lock_each ws).1 = locked_copy <$> find name ws.
Proof.
  rewrite lock_each_wallets.
  induction ws as [|[n w] ws IH]; [done|]. simpl.
  by destruct (decide (n = name)).
Qed.

Lemma lock_each_nil ws : (lock_each ws).1 = [] ↔ ws = [].
Proof.
  rewrite lock_each_wallets. split; [|by intros ->].
  by destruct ws.
Qed.

Lemma lock_all_eq σ :
  lock_all σ =
  (Return (),
   with_log (log σ ++ (lock_each (wallets σ)).2)
     (with_wallets (lock_each (wallets σ)).1 σ)).
Proof. reflexivity. Qed.

Lemma check_timeout_eq σ : check_timeout σ = (Return (), checked σ).
Proof.
  unfold checked, check_timeout. rewrite bind_gets.
  destruct (bool_decide (timeout_time σ ≠ timepoint_max)); [|done].
  unfold mbind, M_bind, system_clock_now. simpl.
  by destruct (bool_decide (timeout_time σ ≤ clock σ (reads σ))).
Qed.

Lemma bind_check_timeout {B} (k : unit → M W F B) σ :
  (check_timeout ≫= k) σ = k () (checked σ).
Proof. apply bind_Return, check_timeout_eq. Qed.

Lemma checked_disabled σ : timeout_time σ = timepoint_max → checked σ = σ.
Proof.
  intros Hoff. unfold checked, check_timeout. rewrite bind_gets.
  by rewrite bool_decide_false by (by intros []).
Qed.

Lemma checked_expired σ :
  enabled σ → timeout_time σ ≤ clock σ (reads σ) →
  checked σ =
  with_timeout_time (time_plus (clock σ (reads σ)) (timeout σ))
    (with_log (log σ ++ (lock_each (wallets σ)).2)
       (with_wallets (lock_each (wallets σ)).1
          (with_reads (S (reads σ)) σ))).
Proof.
  intros Hon Hexp. unfold checked, check_timeout. rewrite bind_gets.
  rewrite bool_decide_true by done.
  unfold mbind, M_bind, system_clock_now. simpl.
  by rewrite bool_decide_true by done.
Qed.

Lemma checked_alive σ :
  enabled σ → clock σ (reads σ) < timeout_time σ →
  checked σ =
  with_timeout_time (time_plus (clock σ (reads σ)) (timeout σ))
    (with_reads (S (reads σ)) σ).
Proof.
  intros Hon Hexp. unfold checked, check_timeout. rewrite bind_gets.
  rewrite bool_decide_true by done.
  unfold mbind, M_bind, system_clock_now. simpl.
  by rewrite bool_decide_false by lia.
Qed.

(** The three cases cover every state. *)
Lemma checked_cases σ :
  (timeout_time σ = timepoint_max ∧ checked σ = σ) ∨
  (enabled σ ∧ timeout_time σ ≤ clock σ (reads σ)) ∨
  (enabled σ ∧ clock σ (reads σ) < timeout_time σ).
Proof.
  destruct (decide (timeout_time σ = timepoint_max)) as [Hoff|Hon].
  - left. split; [done|]. by apply checked_disabled.
  - right. destruct (decide (timeout_time σ ≤ clock σ (reads σ))).
    + by left.
    + right. split; [done|lia].
Qed.

(** What the step leaves alone. *)
Lemma checked_frame σ :
  timeout (checked σ) = timeout σ ∧ dir (checked σ) = dir σ ∧
  files (checked σ) = files σ ∧ clock (checked σ) = clock σ ∧
  entropy (checked σ) = entropy σ ∧ draws (checked σ) = draws σ.
Proof.
  destruct (checked_cases σ) as [[_ ->]|[[Hon Ht]|[Hon Ht]]]; [done| |].
  - by rewrite checked_expired.
  - by rewrite checked_alive.
Qed.

Lemma checked_files σ : files (checked σ) = files σ.
Proof. apply checked_frame. Qed.

Lemma checked_dir σ : dir (checked σ) = dir σ.
Proof. apply checked_frame. Qed.

(** It registers and unregisters nothing. *)
Lemma checked_find_None name σ :
  find name (wallets (checked σ)) = None ↔ find name (wallets σ) = None.
Proof.
  destruct (checked_cases σ) as [[_ ->]|[[Hon Ht]|[Hon Ht]]]; [done| |].
  - rewrite checked_expired by done. simpl. rewrite find_lock_each.
    by destruct (find name (wallets σ)).
  - by rewrite checked_alive.
Qed.

Lemma checked_wallets_nil σ : wallets (checked σ) = [] ↔ wallets σ = [].
Proof.
  destruct (checked_cases σ) as [[_ ->]|[[Hon Ht]|[Hon Ht]]]; [done| |].
  - rewrite checked_expired by done. simpl. apply lock_each_nil.
  - by rewrite checked_alive.
Qed.

(** A locked wallet is not touched. *)
Lemma checked_find_locked name σ w :
  find name (wallets σ) = Some w → wallet_api.is_locked w = true →
  find name (wallets (checked σ)) = Some w.
Proof.
  intros Hfind Hw.
  destruct (checked_cases σ) as [[_ ->]|[[Hon Ht]|[Hon Ht]]]; [done| |].
  - rewrite checked_expired by done. simpl. rewrite find_lock_each, Hfind.
    simpl. unfold locked_copy. by rewrite Hw.
  - by rewrite checked_alive.
Qed.

(** A registered wallet is as it was, or locked by the step. *)
Lemma checked_find name σ w :
  find name (wallets σ) = Some w →
  find name (wallets (checked σ)) = Some w ∨
  find name (wallets (checked σ)) = Some (locked_copy w).
Proof.
  intros Hfind.
  destruct (checked_cases σ) as [[_ ->]|[[Hon Ht]|[Hon Ht]]]; [by left| |].
  - right. rewrite checked_expired by done. simpl.
    by rewrite find_lock_each, Hfind.
  - left. by rewrite checked_alive.
Qed.

(** Its events are [lock] calls: none is an access to the file system. *)
Lemma checked_log σ :
  ∃ evs, log (checked σ) = log σ ++ evs ∧
         Forall (λ e, is_file_event e = false) evs.
Proof.
  destruct (checked_cases σ) as [[_ ->]|[[Hon Ht]|[Hon Ht]]].
  - exists []. by rewrite app_nil_r.
  - rewrite checked_expired by done. simpl. eexists. split; [done|].
    rewrite lock_each_events. apply Forall_fmap, Forall_forall. by intros.
  - rewrite checked_alive by done. exists []. by rewrite app_nil_r.
Qed.

End timeout_step.

(** ** Signing *)

Section signing.
Context `{chain_types} {W F : Type} `{!wallet_api.ops W F}.
Implicit Types (σ : world W F) (ws : list (string * W)) (name : string).
Implicit Types (d : digest_type) (k : public_key_type).

Lemma asked_cons d k n (w : W) ws :
  asked d k ((n, w) :: ws) =
  if wallet_api.is_locked w then asked d k ws
  else ev_try_sign_digest n d k :: asked d k ws.
Proof.
  unfold asked. rewrite filter_cons.
  destruct (wallet_api.is_locked w) eqn:Hw; simpl.
  - rewrite decide_False; [done|]. by rewrite Hw.
  - rewrite decide_True; [done|]. by rewrite Hw.
Qed.

Lemma asked_app d k ws ws' :
  asked d k (ws ++ ws') = asked d k ws ++ asked d k ws'.
Proof. unfold asked. by rewrite filter_app, fmap_app. Qed.

Lemma with_log_app (l l' : list event) σ :
  with_log (log (with_log (log σ ++ l) σ) ++ l') (with_log (log σ ++ l) σ) =
  with_log (log σ ++ l ++ l') σ.
Proof. unfold with_log. simpl. by rewrite app_assoc. Qed.

(** One step of the scan past a wallet that gives nothing. *)
Lemma scan_skip d k n (w : W) ws σ :
  gives_nothing d k (n, w) →
  scan d k ((n, w) :: ws) σ =
  scan d k ws (with_log (log σ ++ asked d k [(n, w)]) σ).
Proof.
  intros Hnone. rewrite asked_cons. cbn [scan].
  change (asked d k []) with (@nil event).
  destruct (wallet_api.is_locked w) eqn:Hw; cbn [negb].
  - by rewrite with_log_nil.
  - destruct Hnone as [Hl|Hn]; [simpl in Hl; congruence|]. simpl in Hn.
    rewrite bind_tell. by rewrite Hn.
Qed.

Lemma scan_found d k before n (w : W) after sig σ :
  Forall (gives_nothing d k) before →
  wallet_api.is_locked w = false →
  wallet_api.try_sign_digest d k w = Some sig →
  scan d k (before ++ (n, w) :: after) σ =
  (Return (Some sig),
   with_log (log σ ++ asked d k before ++ [ev_try_sign_digest n d k]) σ).
Proof.
  intros Hbefore Hw Hsig. revert σ.
  induction Hbefore as [|[n0 w0] before Hn0 _ IH]; intros σ.
  - cbn [app scan]. rewrite Hw. cbn [negb]. rewrite bind_tell. by rewrite Hsig.
  - rewrite <- app_comm_cons, scan_skip by done. rewrite IH.
    rewrite with_log_app.
    change ((n0, w0) :: before) with ([(n0, w0)] ++ before).
    by rewrite asked_app, <- app_assoc.
Qed.

Lemma scan_none d k ws σ :
  Forall (gives_nothing d k) ws →
  scan d k ws σ = (Return None, with_log (log σ ++ asked d k ws) σ).
Proof.
  intros Hws. revert σ.
  induction Hws as [|[n0 w0] ws Hn0 _ IH]; intros σ.
  - cbn [scan]. change (asked d k []) with (@nil event).
    by rewrite with_log_nil.
  - rewrite scan_skip by done. rewrite IH.
    rewrite with_log_app.
    change ((n0, w0) :: ws) with ([(n0, w0)] ++ ws).
    by rewrite asked_app.
Qed.

(** Either no wallet gives a signature, or there is a first one that does. *)
Lemma scan_cases d k ws :
  Forall (gives_nothing d k) ws ∨
  ∃ before n w after sig,
    ws = before ++ (n, w) :: after ∧ Forall (gives_nothing d k) before ∧
    wallet_api.is_locked w = false ∧
    wallet_api.try_sign_digest d k w = Some sig.
Proof.
  induction ws as [|[n w] ws IH]; [by left|].
  destruct (wallet_api.is_locked w) eqn:Hw.
  { destruct IH as [Hall|(before & n' & w' & after & sig & -> & ? & ? & ?)].
    - left. constructor; [by left|done].
    - right. exists ((n, w) :: before), n', w', after, sig.
      split_and!; try done. constructor; [by left|done]. }
  destruct (wallet_api.try_sign_digest d k w) as [sig|] eqn:Hsig.
  { right. by exists [], n, w, ws, sig. }
  destruct IH as [Hall|(before & n' & w' & after & sig & -> & ? & ? & ?)].
  - left. constructor; [by right|done].
  - right. exists ((n, w) :: before), n', w', after, sig.
    split_and!; try done. constructor; [by right|done].
Qed.

End signing.

(** ** Which methods check the time-out *)

Section checking.
Context `{chain_types} {W F : Type} `{!wallet_api.ops W F}.
Implicit Types (σ : world W F) (ws : list (string * W)) (name : string).

Lemma checks_first_bind {A B} (m : M W F A) (k : A → M W F B) :
  checks_first m → checks_first (m ≫= k).
Proof.
  intros [rest Hrest]. exists (rest ≫= k). intros σ.
  unfold mbind at 1, M_bind at 1. rewrite Hrest.
  rewrite !bind_check_timeout. reflexivity.
Qed.

Lemma checks_first_intro {A} (rest : M W F A) :
  checks_first (check_timeout;; rest).
Proof. by exists rest. Qed.

Ltac unfold_methods :=
  unfold create, open, list_wallets, list_keys, get_public_keys,
    get_my_signatures, lock, unlock, import_key, remove_key, create_key,
    sign_transaction, sign_digest.

Lemma perform_checks_first (r : request) : checks_first (perform r).
Proof.
  destruct r; cbn [perform]; unfold_methods;
    first [ apply checks_first_intro
          | apply checks_first_bind, checks_first_intro ].
Qed.

(** When the count does not overflow, [now + timeout] is the sum. *)
Lemma time_plus_exact now t :
  - 2 ^ 63 ≤ now + t * system_clock_period < 2 ^ 63 →
  time_plus now t = now + t * system_clock_period.
Proof.
  intros Hrange. unfold time_plus, int64_wrap.
  rewrite Z.mod_small by lia. lia.
Qed.

(** C2, as amended.  Each of [create], [open], [list_wallets], [list_keys],
    [get_public_keys], [get_my_signatures], [lock], [unlock], [import_key],
    [remove_key], [create_key], [sign_transaction] and [sign_digest] performs
    the [check_timeout] step first.  With the expiry at the sentinel the step
    does nothing.  Otherwise it reads the clock; if the time read has reached
    or passed the expiry it calls [lock] on every unlocked wallet; and it sets
    the expiry to the time read plus the configured duration, which is their
    sum unless the 64-bit count overflows. *)
Theorem checked_methods :
  (∀ name, checks_first (create name)) ∧
  (∀ name, checks_first (open name)) ∧
  checks_first list_wallets ∧
  (∀ name pw, checks_first (list_keys name pw)) ∧
  checks_first get_public_keys ∧
  (∀ chain_id, checks_first (get_my_signatures chain_id)) ∧
  (∀ name, checks_first (lock name)) ∧
  (∀ name password, checks_first (unlock name password)) ∧
  (∀ name wif_key, checks_first (import_key name wif_key)) ∧
  (∀ name password key, checks_first (remove_key name password key)) ∧
  (∀ name key_type, checks_first (create_key name key_type)) ∧
  (∀ txn keys id, checks_first (sign_transaction txn keys id)) ∧
  (∀ digest key, checks_first (sign_digest digest key)) ∧
  (∀ σ, timeout_time σ = timepoint_max → check_timeout σ = (Return (), σ)) ∧
  (∀ σ, timeout_time σ ≠ timepoint_max →
     (check_timeout σ).1 = Return () ∧
     reads (checked σ) = S (reads σ) ∧
     timeout_time (checked σ) = time_plus (clock σ (reads σ)) (timeout σ) ∧
     (timeout_time σ ≤ clock σ (reads σ) →
        wallets (checked σ) =
          (λ i : string * W, (i.1, locked_copy i.2)) <$> wallets σ ∧
        log (checked σ) =
          log σ ++ ((λ i : string * W, ev_lock i.1)
                      <$> filter (λ i, wallet_api.is_locked i.2 = false)
                            (wallets σ))) ∧
     (clock σ (reads σ) < timeout_time σ →
        wallets (checked σ) = wallets σ ∧ log (checked σ) = log σ)) ∧
  (∀ now t, - 2 ^ 63 ≤ now + t * system_clock_period < 2 ^ 63 →
     time_plus now t = now + t * system_clock_period).
Proof.
  split_and!; try (intros; unfold_methods; apply checks_first_intro);
    [| |apply time_plus_exact].
  - intros σ Hoff. rewrite check_timeout_eq. by rewrite checked_disabled.
  - intros σ Hon. rewrite check_timeout_eq. split; [done|].
    destruct (decide (timeout_time σ ≤ clock σ (reads σ))) as [Ht|Ht].
    + rewrite checked_expired by done. simpl.
      rewrite lock_each_wallets, lock_each_events.
      split_and!; try done. lia.
    + rewrite checked_alive by (done || lia). simpl.
      split_and!; try done.
Qed.

End checking.

(** ** Opening, locking and unlocking *)

Section lock_unlock.
Context `{chain_types} {W F : Type} `{!wallet_api.ops W F}.
Implicit Types (σ : world W F) (ws : list (string * W)) (name : string).

Lemma wallet_path_checked name σ :
  wallet_path name (checked σ) = wallet_path name σ.
Proof. unfold wallet_path. by rewrite checked_dir. Qed.

Lemma opened_checked name σ : opened name (checked σ) = opened name σ.
Proof. unfold opened. by rewrite wallet_path_checked, checked_files. Qed.

Lemma open_invalid name σ :
  valid_filename name = false →
  open name σ = (Throw wallet_exception, checked σ).
Proof.
  intros Hname. unfold open. rewrite bind_check_timeout. by rewrite Hname.
Qed.

Lemma open_missing name σ :
  valid_filename name = true → (opened name σ).1 = false →
  open name σ =
  (Throw wallet_nonexistent_exception,
   with_log (log (checked σ) ++ [ev_load (wallet_path name σ)]) (checked σ)).
Proof.
  intros Hname Hload. rewrite <- opened_checked in Hload.
  rewrite <- wallet_path_checked.
  unfold open. rewrite bind_check_timeout, Hname. unfold EVT_ASSERT.
  generalize (checked σ) Hload. clear. intros σ Hload.
  unfold opened, wallet_path in Hload.
  cbv [mbind M_bind mret M_ret gets tell modify]. simpl.
  by rewrite Hload.
Qed.

Lemma open_loaded name σ :
  valid_filename name = true → (opened name σ).1 = true →
  open name σ =
  (Return (),
   with_wallets
     (emplace name (opened name σ).2 (erase name (wallets (checked σ))))
     (with_log (log (checked σ) ++ [ev_load (wallet_path name σ)])
        (checked σ))).
Proof.
  intros Hname Hload. rewrite <- opened_checked in Hload.
  rewrite <- opened_checked, <- wallet_path_checked.
  unfold open. rewrite bind_check_timeout, Hname. unfold EVT_ASSERT.
  generalize (checked σ) Hload. clear. intros σ Hload.
  unfold opened, wallet_path in *.
  cbv [mbind M_bind mret M_ret gets tell modify]. simpl.
  by rewrite Hload.
Qed.

(** [open] throws one of two exceptions and then registers nothing, or it
    returns and the name is registered. *)
Lemma open_cases name σ :
  (valid_filename name = false ∧
   open name σ = (Throw wallet_exception, checked σ)) ∨
  (valid_filename name = true ∧ (opened name σ).1 = false ∧
   open name σ =
   (Throw wallet_nonexistent_exception,
    with_log (log (checked σ) ++ [ev_load (wallet_path name σ)])
      (checked σ))) ∨
  (valid_filename name = true ∧ (opened name σ).1 = true ∧
   ∃ σ', open name σ = (Return (), σ') ∧
         find name (wallets σ') = Some (opened name σ).2).
Proof.
  destruct (valid_filename name) eqn:Hname.
  - right. destruct (opened name σ).1 eqn:Hload.
    + right. split_and!; try done. eexists. split.
      * by apply open_loaded.
      * simpl. apply find_emplace, find_erase.
    + left. split_and!; try done. by apply open_missing.
  - left. split; [done|]. by apply open_invalid.
Qed.

Lemma lock_unregistered name σ :
  find name (wallets (checked σ)) = None →
  lock name σ = (Throw wallet_nonexistent_exception, checked σ).
Proof.
  intros Hfind. unfold lock. by rewrite bind_check_timeout, bind_gets, Hfind.
Qed.

Lemma lock_already_locked name σ w :
  find name (wallets (checked σ)) = Some w → wallet_api.is_locked w = true →
  lock name σ = (Return (), checked σ).
Proof.
  intros Hfind Hw. unfold lock.
  rewrite bind_check_timeout, bind_gets, Hfind. by rewrite Hw.
Qed.

Lemma lock_unlocked name σ w :
  find name (wallets (checked σ)) = Some w → wallet_api.is_locked w = false →
  lock name σ =
  (Return (),
   with_wallets (replace name (wallet_api.lock w) (wallets (checked σ)))
     (with_log (log (checked σ) ++ [ev_lock name]) (checked σ))).
Proof.
  intros Hfind Hw. unfold lock.
  rewrite bind_check_timeout, bind_gets, Hfind. by rewrite Hw.
Qed.

(** The method from the point where the wallet has been looked up. *)
Lemma unlock_looked_up name password σ σ' w :
  looked_up name σ σ' w →
  unlock name password σ =
  (if negb (wallet_api.is_locked w)
   then throw wallet_unlocked_exception
   else call_at name (ev_unlock name password)
          (wallet_api.unlock password w)) σ'.
Proof.
  unfold looked_up. fold (checked σ).
  intros [[Hfind ->]|(Hfind & Hopen & Hfind')];
    unfold unlock; rewrite bind_check_timeout, bind_gets, Hfind.
  - rewrite bool_decide_false by done.
    cbv [mbind M_bind mret M_ret gets]. by rewrite Hfind.
  - rewrite bool_decide_true by done. cbv iota.
    erewrite bind_Return by done. by rewrite bind_gets, Hfind'.
Qed.

Lemma unlock_delegates name password σ σ' w :
  looked_up name σ σ' w → wallet_api.is_locked w = true →
  unlock name password σ =
  ((wallet_api.unlock password w).1,
   with_wallets (replace name (wallet_api.unlock password w).2 (wallets σ'))
     (with_log (log σ' ++ [ev_unlock name password]) σ')).
Proof.
  intros Hw Hlocked.
  rewrite (unlock_looked_up _ _ _ _ _ Hw). rewrite Hlocked. simpl.
  unfold call_at. rewrite bind_tell, bind_modify.
  by destruct (wallet_api.unlock password w).1.
Qed.

(** C3, as amended.  [unlock(name, password)], once the time-out step is
    done: if the name is not registered it attempts [open(name)]; when that
    attempt throws, [unlock] throws the same exception, which is
    [wallet_exception] (InvalidName) for an invalid name and
    [wallet_nonexistent_exception] when the wallet file does not load, and
    the name is still not registered; when it returns, the name is
    registered.  With the wallet looked up, [unlock] throws
    [wallet_unlocked_exception] if it is unlocked; otherwise it calls the
    wallet's [unlock], whose outcome is its own: an exception of the wallet,
    BadPassword on a mismatch, is propagated. *)
Theorem unlock_cases name password σ :
  (find name (wallets (checked σ)) = None →
   valid_filename name = false →
   unlock name password σ = (Throw wallet_exception, checked (checked σ)) ∧
   find name (wallets (unlock name password σ).2) = None) ∧
  (find name (wallets (checked σ)) = None →
   valid_filename name = true → (opened name σ).1 = false →
   (unlock name password σ).1 = Throw wallet_nonexistent_exception ∧
   find name (wallets (unlock name password σ).2) = None) ∧
  (find name (wallets (checked σ)) = None →
   valid_filename name = true → (opened name σ).1 = true →
   ∃ σ', looked_up name σ σ' (opened name σ).2) ∧
  (∀ σ' w, looked_up name σ σ' w → wallet_api.is_locked w = false →
   unlock name password σ = (Throw wallet_unlocked_exception, σ')) ∧
  (∀ σ' w, looked_up name σ σ' w → wallet_api.is_locked w = true →
   unlock name password σ =
   ((wallet_api.unlock password w).1,
    with_wallets (replace name (wallet_api.unlock password w).2 (wallets σ'))
      (with_log (log σ' ++ [ev_unlock name password]) σ'))).
Proof.
  split_and!.
  - intros Hfind Hname.
    assert (unlock name password σ = (Throw wallet_exception, checked (checked σ)))
      as Heq.
    { unfold unlock. rewrite bind_check_timeout, bind_gets, Hfind.
      rewrite bool_decide_true by done. cbv iota.
      erewrite bind_Throw; [done|]. by apply open_invalid. }
    split; [done|]. rewrite Heq. simpl. by rewrite checked_find_None.
  - intros Hfind Hname Hload.
    rewrite <- opened_checked in Hload.
    pose proof (open_missing name (checked σ) Hname Hload) as Hopen.
    unfold unlock. rewrite bind_check_timeout, bind_gets, Hfind.
    rewrite bool_decide_true by done. cbv iota.
    erewrite bind_Throw by done. simpl. split; [done|].
    by rewrite checked_find_None.
  - intros Hfind Hname Hload.
    rewrite <- opened_checked in Hload.
    destruct (open_cases name (checked σ))
      as [[? _]|[(_ & ? & _)|(_ & _ & σ' & Hopen & Hfind')]]; try congruence.
    exists σ'. right. fold (checked σ).
    by rewrite opened_checked in Hfind'.
  - intros σ' w Hw Hlocked.
    rewrite (unlock_looked_up _ _ _ _ _ Hw). by rewrite Hlocked.
  - intros σ' w. apply unlock_delegates.
Qed.

End lock_unlock.

(** ** Properties that rest on the contract of the wallets *)

Section contract.
Context `{chain_types} {W F : Type} `{!wallet_api.ops W F}.
Context `{!wallet_api.contract W F}.
Implicit Types (σ : world W F) (ws : list (string * W)) (name : string).

(** C7, as amended.  [lock(name)], once the time-out step is done: it throws
    [wallet_nonexistent_exception] if the name is not registered; if the
    wallet is locked it returns without calling the wallet's [lock] and
    leaves the state as the time-out step left it, so unchanged altogether
    when the time-out is off; if the wallet is unlocked it locks it.  A second
    [lock(name)] right after one that returned changes nothing beyond its
    own time-out step. *)
Theorem lock_cases name σ :
  (find name (wallets (checked σ)) = None ↔ find name (wallets σ) = None) ∧
  (find name (wallets (checked σ)) = None →
   lock name σ = (Throw wallet_nonexistent_exception, checked σ)) ∧
  (∀ w, find name (wallets (checked σ)) = Some w →
        wallet_api.is_locked w = true →
        lock name σ = (Return (), checked σ)) ∧
  (∀ w, find name (wallets (checked σ)) = Some w →
        wallet_api.is_locked w = false →
        lock name σ =
        (Return (),
         with_wallets (replace name (wallet_api.lock w) (wallets (checked σ)))
           (with_log (log (checked σ) ++ [ev_lock name]) (checked σ))) ∧
        find name (wallets (lock name σ).2) = Some (wallet_api.lock w) ∧
        wallet_api.is_locked (wallet_api.lock w) = true) ∧
  (∀ w, timeout_time σ = timepoint_max →
        find name (wallets σ) = Some w → wallet_api.is_locked w = true →
        lock name σ = (Return (), σ)) ∧
  (∀ σ', lock name σ = (Return (), σ') →
         lock name σ' = (Return (), checked σ')).
Proof.
  split_and!.
  - apply checked_find_None.
  - apply lock_unregistered.
  - apply lock_already_locked.
  - intros w Hfind Hw. split_and!.
    + by apply lock_unlocked.
    + rewrite (lock_unlocked _ _ w) by done. simpl. by eapply find_replace.
    + apply wallet_api.lock_locked.
  - intros w Hoff Hfind Hw.
    rewrite <- (checked_disabled σ Hoff) at 2.
    apply (lock_already_locked _ σ w); [|done]. by rewrite checked_disabled.
  - intros σ' Hlock.
    destruct (find name (wallets (checked σ))) as [w|] eqn:Hfind.
    + destruct (wallet_api.is_locked w) eqn:Hw.
      * rewrite (lock_already_locked _ σ w) in Hlock by done.
        injection Hlock as <-.
        apply (lock_already_locked _ _ w); [|done]. by apply checked_find_locked.
      * rewrite (lock_unlocked _ _ w) in Hlock by done.
        injection Hlock as <-.
        apply (lock_already_locked _ _ (wallet_api.lock w)).
        -- apply checked_find_locked.
           ++ simpl. by eapply find_replace.
           ++ apply wallet_api.lock_locked.
        -- apply wallet_api.lock_locked.
    + by rewrite lock_unregistered in Hlock.
Qed.

(** C9.  When [unlock(name, password)] finds the name unregistered, the name
    is valid, the wallet file loads into a locked wallet and the password
    does not verify, then [open] has registered the wallet before the
    wallet's [unlock] is called; [unlock] throws BadPassword and the wallet
    is registered and locked afterwards. *)
Theorem unlock_bad_password name password σ :
  find name (wallets (checked σ)) = None →
  valid_filename name = true →
  (opened name σ).1 = true →
  wallet_api.is_locked (opened name σ).2 = true →
  wallet_api.check_password password (opened name σ).2 ≠ Return () →
  (unlock name password σ).1 = Throw wallet_invalid_password_exception ∧
  (∃ w, find name (wallets (unlock name password σ).2) = Some w ∧
        wallet_api.is_locked w = true) ∧
  log (unlock name password σ).2 =
  log (checked (checked σ))
    ++ [ev_load (wallet_path name σ); ev_unlock name password].
Proof.
  intros Hfind Hname Hload Hlocked Hpw.
  pose proof Hload as Hload'. rewrite <- opened_checked in Hload'.
  pose proof (open_loaded name (checked σ) Hname Hload') as Hopen.
  rewrite opened_checked, wallet_path_checked in Hopen.
  set (w := (opened name σ).2) in *.
  set (σ' := with_wallets _ _) in Hopen.
  assert (find name (wallets σ') = Some w) as Hfind'.
  { subst σ'. simpl. apply find_emplace, find_erase. }
  assert (looked_up name σ σ' w) as Hw by (by right).
  rewrite (unlock_delegates name password σ σ' w Hw Hlocked). simpl.
  destruct (wallet_api.unlock_rejected password w Hlocked Hpw) as [Hthrow Hstill].
  split_and!.
  - done.
  - eexists. split; [by eapply find_replace|done].
  - by rewrite <- app_assoc.
Qed.

End contract.

(** ** The public keys of the unlocked wallets *)

Section public_keys.
Context `{chain_types} {W F : Type} `{!wallet_api.ops W F}.
Implicit Types (σ : world W F) (ws : list (string * W)) (name : string).

Lemma merge_public_keys_locked ws acc :
  (merge_public_keys ws acc).2 = true ↔
  acc.2 = true ∧ Forall (λ i, wallet_api.is_locked i.2 = true) ws.
Proof.
  revert acc. induction ws as [|[n w] ws IH]; intros acc; simpl.
  - split; [by intros ->|by intros [-> _]].
  - rewrite IH. simpl. rewrite andb_true_iff, Forall_cons. simpl. tauto.
Qed.

Lemma merge_public_keys_elem ws acc k :
  k ∈ (merge_public_keys ws acc).1 ↔
  k ∈ acc.1 ∨ ∃ i, i ∈ ws ∧ wallet_api.is_locked i.2 = false ∧
                   k ∈ wallet_api.list_public_keys i.2.
Proof.
  revert acc. induction ws as [|[n w] ws IH]; intros acc; simpl.
  - split; [by left|]. intros [?|(i & Hi & _)]; [done|]. by inversion Hi.
  - rewrite IH. simpl. split.
    + intros [Hk|(i & Hi & Hl & Hk)].
      * destruct (wallet_api.is_locked w) eqn:Hw; simpl in Hk; [by left|].
        apply elem_of_union in Hk as [Hk|Hk]; [by left|].
        right. exists (n, w). split_and!; [left|done|done].
      * right. exists i. split_and!; [by right|done|done].
    + intros [Hk|(i & Hi & Hl & Hk)].
      * left. destruct (wallet_api.is_locked w); simpl; [done|].
        apply elem_of_union. by left.
      * apply elem_of_cons in Hi as [->|Hi].
        -- left. simpl in Hl, Hk. rewrite Hl. simpl.
           apply elem_of_union. by right.
        -- right. by exists i.
Qed.

Lemma get_public_keys_eq σ :
  get_public_keys σ =
  ((if bool_decide (wallets (checked σ) = [])
    then Throw wallet_not_available_exception
    else if (merge_public_keys (wallets (checked σ)) (∅, true)).2
         then Throw wallet_locked_exception
         else Return (merge_public_keys (wallets (checked σ)) (∅, true)).1),
   checked σ).
Proof.
  unfold get_public_keys. rewrite bind_check_timeout, bind_gets.
  destruct (bool_decide (wallets (checked σ) = [])); [done|].
  cbv [EVT_ASSERT negb mbind M_bind mret M_ret].
  destruct (merge_public_keys (wallets (checked σ)) (∅, true)) as [keys b].
  by destruct b.
Qed.

(** C4.  [get_public_keys] throws [wallet_not_available_exception] exactly
    when the registry is empty.  It throws [wallet_locked_exception] exactly
    when the registry is not empty and every wallet is locked once the
    time-out step is done.  Otherwise it returns the union of the public keys
    of the unlocked wallets.  The two exceptions are different. *)
Theorem get_public_keys_cases σ :
  ((get_public_keys σ).1 = Throw wallet_not_available_exception ↔
   wallets σ = []) ∧
  ((get_public_keys σ).1 = Throw wallet_locked_exception ↔
   wallets σ ≠ [] ∧
   Forall (λ i, wallet_api.is_locked i.2 = true) (wallets (checked σ))) ∧
  (wallets σ ≠ [] →
   ¬ Forall (λ i, wallet_api.is_locked i.2 = true) (wallets (checked σ)) →
   ∃ keys, (get_public_keys σ).1 = Return keys ∧
     ∀ k, k ∈ keys ↔
          ∃ i, i ∈ wallets (checked σ) ∧ wallet_api.is_locked i.2 = false ∧
               k ∈ wallet_api.list_public_keys i.2) ∧
  wallet_not_available_exception ≠ wallet_locked_exception.
Proof.
  rewrite get_public_keys_eq. simpl.
  pose proof (merge_public_keys_locked (wallets (checked σ)) (∅, true)) as Hall.
  rewrite <- (checked_wallets_nil σ).
  split_and!; [| | |done].
  - case_bool_decide as Hnil; [done|].
    destruct (merge_public_keys _ _).2; split; done.
  - case_bool_decide as Hnil.
    + split; [done|]. by intros [? _].
    + destruct (merge_public_keys _ _).2.
      * split; [|done]. intros _. split; [done|]. by apply Hall.
      * split; [done|]. intros [_ Hl].
        assert (false = true) by (by apply Hall). done.
  - intros Hne Hsome. rewrite bool_decide_false by done.
    destruct (merge_public_keys _ _).2 eqn:Hb.
    + destruct Hsome. by apply Hall.
    + eexists. split; [done|]. intros k.
      rewrite merge_public_keys_elem. simpl.
      split; [|by right]. intros [Hk|Hk]; [|done].
      by apply not_elem_of_empty in Hk.
Qed.

(** C10.  When, once the time-out step is done, some wallet is unlocked and
    every unlocked wallet has no public key, [get_public_keys] returns the
    empty set: [wallet_locked_exception] is for all wallets locked, not for
    an empty union. *)
Theorem get_public_keys_empty σ :
  (∃ i, i ∈ wallets (checked σ) ∧ wallet_api.is_locked i.2 = false) →
  (∀ i, i ∈ wallets (checked σ) → wallet_api.is_locked i.2 = false →
        wallet_api.list_public_keys i.2 = ∅) →
  get_public_keys σ = (Return ∅, checked σ).
Proof.
  intros (i & Hi & Hl) Hnone. rewrite get_public_keys_eq. f_equal.
  rewrite bool_decide_false by (intros Hnil; rewrite Hnil in Hi; inversion Hi).
  destruct (merge_public_keys _ _).2 eqn:Hb.
  - apply merge_public_keys_locked in Hb as [_ Hall].
    rewrite Forall_forall in Hall. specialize (Hall i Hi). congruence.
  - f_equal. apply set_eq. intros k.
    rewrite merge_public_keys_elem. simpl.
    split; [|by intros Hk%not_elem_of_empty].
    intros [Hk|(j & Hj & Hjl & Hk)]; [done|].
    by rewrite (Hnone j Hj Hjl) in Hk.
Qed.

End public_keys.

(** ** Names *)

Section names.
Context `{chain_types} {W F : Type} `{!wallet_api.ops W F}.
Implicit Types (σ : world W F) (name : string).

Lemma valid_filename_bad_char name c :
  c ∈ list_ascii_of_string name →
  negb (is_alnum c) && negb (is_any_of "._-" c) = true →
  valid_filename name = false.
Proof.
  intros Hc Hbad. unfold valid_filename.
  destruct (String.eqb name ""); [done|].
  assert (existsb (λ c, negb (is_alnum c) && negb (is_any_of "._-" c))
            (list_ascii_of_string name) = true) as ->; [|done].
  apply existsb_exists. exists c. split; [|done]. by apply list_elem_of_In.
Qed.

Lemma valid_filename_rejects name :
  name = "" ∨ slash ∈ list_ascii_of_string name ∨
  backslash ∈ list_ascii_of_string name ∨ path_filename name ≠ name →
  valid_filename name = false.
Proof.
  intros [->|[Hc|[Hc|Hpath]]]; [done| | |].
  - by apply (valid_filename_bad_char name slash).
  - by apply (valid_filename_bad_char name backslash).
  - unfold valid_filename.
    destruct (String.eqb name ""); [done|].
    destruct (existsb _ _); [done|].
    by apply String.eqb_neq.
Qed.

Lemma last_component_id cs :
  existsb is_separator cs = false → last_component cs = cs.
Proof.
  destruct cs as [|c cs]; [done|]. simpl.
  intros [Hc Hcs]%orb_false_iff. by rewrite Hcs, Hc.
Qed.

Lemma path_filename_id name :
  existsb is_separator (list_ascii_of_string name) = false →
  path_filename name = name.
Proof.
  intros Hsep. unfold path_filename.
  rewrite last_component_id by done.
  destruct (list_ascii_of_string name) as [|c cs] eqn:Hcs.
  - rewrite <- (string_of_list_ascii_of_string name). by rewrite Hcs.
  - simpl in Hsep. apply orb_false_iff in Hsep as [Hc _].
    simpl. rewrite Hc. simpl.
    rewrite <- (string_of_list_ascii_of_string name). by rewrite Hcs.
Qed.

Lemma name_alphabet_ok c :
  c ∈ list_ascii_of_string name_alphabet →
  negb (is_alnum c) && negb (is_any_of "._-" c) = false ∧
  is_separator c = false.
Proof.
  intros Hc%list_elem_of_In.
  assert (forallb (λ c, negb (negb (is_alnum c) && negb (is_any_of "._-" c))
                        && negb (is_separator c))
            (list_ascii_of_string name_alphabet) = true) as Hall
    by (vm_compute; reflexivity).
  rewrite forallb_forall in Hall. specialize (Hall c Hc).
  apply andb_true_iff in Hall as [Hchar Hsep].
  split; [by apply negb_true_iff in Hchar|by apply negb_true_iff in Hsep].
Qed.

Lemma valid_filename_accepts name :
  name ≠ "" →
  Forall (λ c, c ∈ list_ascii_of_string name_alphabet)
    (list_ascii_of_string name) →
  valid_filename name = true.
Proof.
  intros Hne Hchars. unfold valid_filename.
  rewrite (proj2 (String.eqb_neq _ _)) by done.
  assert (existsb (λ c, negb (is_alnum c) && negb (is_any_of "._-" c))
            (list_ascii_of_string name) = false) as ->.
  { induction Hchars as [|c cs Hc _ IH]; [done|]. simpl.
    by rewrite (proj1 (name_alphabet_ok c Hc)). }
  rewrite path_filename_id; [apply String.eqb_refl|].
  induction Hchars as [|c cs Hc _ IH]; [done|]. simpl.
  by rewrite (proj2 (name_alphabet_ok c Hc)).
Qed.

(** C8.  For a name that is empty, holds a slash or a backslash, or is not
    the file name of its own path, [create] and [open] throw
    [wallet_exception] (InvalidName) right after the time-out step: no file
    is changed and the file system is not accessed.  A name that is not empty
    and made of letters, digits, dots, underscores and hyphens only passes
    [valid_filename]. *)
Theorem invalid_names name σ :
  (name = "" ∨ slash ∈ list_ascii_of_string name ∨
   backslash ∈ list_ascii_of_string name ∨ path_filename name ≠ name →
   create name σ = (Throw wallet_exception, checked σ) ∧
   open name σ = (Throw wallet_exception, checked σ) ∧
   files (checked σ) = files σ ∧
   ∃ evs, log (checked σ) = log σ ++ evs ∧
          Forall (λ e, is_file_event e = false) evs) ∧
  (name ≠ "" →
   Forall (λ c, c ∈ list_ascii_of_string name_alphabet)
     (list_ascii_of_string name) →
   valid_filename name = true).
Proof.
  split; [|apply valid_filename_accepts].
  intros Hname%valid_filename_rejects. split_and!.
  - unfold create. rewrite bind_check_timeout. by rewrite Hname.
  - by apply open_invalid.
  - apply checked_files.
  - apply checked_log.
Qed.

End names.

(** ** Creating a wallet *)

Section creation.
Context `{chain_types} {W F : Type} `{!wallet_api.ops W F}.
Context `{!wallet_api.contract W F}.
Implicit Types (σ : world W F) (ws : list (string * W)) (name : string).

(** When [create] returns, the wallet it has registered is the one its last
    [unlock], on a locked wallet and with the password returned, has left. *)
Lemma create_inv name σ password σ1 :
  create name σ = (Return password, σ1) →
  ∃ w0 w, wallet_api.is_locked w0 = true ∧
          wallet_api.unlock password w0 = (Return (), w) ∧
          find name (wallets σ1) = Some w.
Proof.
  unfold create. rewrite bind_check_timeout.
  destruct (valid_filename name); [|done].
  generalize (checked σ). clear σ. intros σ.
  cbv [EVT_ASSERT mbind M_bind mret M_ret gets fc_exists tell modify
       gen_password generate call throw register].
  cbn [fst snd files with_log dir draws entropy with_draws log wallets
       with_files with_wallets].
  case_bool_decide; [done|].
  set (pw := (password_prefix +:+ _)%string).
  destruct (wallet_api.set_password pw wallet_api.make) as [[[]|e] w1];
    cbn [fst snd]; [|done].
  destruct (wallet_api.unlock pw (wallet_api.set_wallet_filename _ w1))
    as [[[]|e] w2]; cbn [fst snd]; [|done].
  destruct (wallet_api.unlock pw (wallet_api.lock w2)) as [[[]|e] w3] eqn:Hu;
    cbn [fst snd]; [|done].
  intros [= <- <-]. exists (wallet_api.lock w2), w3. split_and!.
  - apply wallet_api.lock_locked.
  - done.
  - simpl. apply find_emplace, find_erase.
Qed.

(** A password that has unlocked a locked wallet verifies. *)
Lemma unlock_returned_verifies password (w0 w : W) :
  wallet_api.is_locked w0 = true →
  wallet_api.unlock password w0 = (Return (), w) →
  wallet_api.check_password password w0 = Return ().
Proof.
  intros Hl Hu.
  destruct (wallet_api.check_password password w0) as [[]|e] eqn:Hc; [done|].
  destruct (wallet_api.unlock_rejected password w0 Hl) as [Hthrow _].
  { by rewrite Hc. }
  by rewrite Hu in Hthrow.
Qed.

(** C5.  When [create(name)] returns a password, the wallet is registered
    under the name and unlocked; a [lock(name)] after it returns, and an
    [unlock(name, password)] with the password returned, after that, returns
    and leaves the wallet registered and unlocked. *)
Theorem create_round_trip name σ password σ1 :
  create name σ = (Return password, σ1) →
  (∃ w, find name (wallets σ1) = Some w ∧ wallet_api.is_locked w = false) ∧
  ∃ σ2 σ3 w',
    lock name σ1 = (Return (), σ2) ∧
    unlock name password σ2 = (Return (), σ3) ∧
    find name (wallets σ3) = Some w' ∧ wallet_api.is_locked w' = false.
Proof.
  intros (w0 & w & Hl0 & Hu & Hfind)%create_inv.
  pose proof (unlock_returned_verifies _ _ _ Hl0 Hu) as Hc0.
  pose proof (wallet_api.unlock_verified _ _ _ Hl0 Hc0 Hu) as Hw.
  assert (wallet_api.check_password password w = Return ()) as Hc.
  { pose proof (wallet_api.check_password_unlock password password w0) as Hk.
    by rewrite Hu, Hc0 in Hk. }
  split; [by exists w|].
  (* the wallet after [lock name] *)
  assert (∃ σ2, lock name σ1 = (Return (), σ2) ∧
                find name (wallets σ2) = Some (wallet_api.lock w))
    as (σ2 & Hlock & Hfind2).
  { destruct (checked_find name σ1 w Hfind) as [Hf|Hf].
    - eexists. split; [by apply (lock_unlocked _ _ w)|].
      simpl. by eapply find_replace.
    - unfold locked_copy in Hf. rewrite Hw in Hf.
      eexists. split; [|done].
      apply (lock_already_locked _ _ _ Hf), wallet_api.lock_locked. }
  pose proof (wallet_api.lock_locked w) as Hl.
  assert (wallet_api.check_password password (wallet_api.lock w) = Return ())
    as Hcl by (by rewrite wallet_api.check_password_lock).
  assert (looked_up name σ2 (checked σ2) (wallet_api.lock w)) as Hup.
  { left. split; [|done]. by apply checked_find_locked. }
  pose proof (unlock_delegates name password _ _ _ Hup Hl) as Hcall.
  pose proof (wallet_api.unlock_returns _ _ Hl Hcl) as Hret.
  destruct (wallet_api.unlock password (wallet_api.lock w)) as [r w'] eqn:Hu'.
  simpl in Hret, Hcall. subst r.
  eexists σ2, _, w'. split_and!; [done|done| |].
  - simpl. eapply find_replace. by apply checked_find_locked.
  - by apply (wallet_api.unlock_verified _ _ _ Hl Hcl Hu').
Qed.

End creation.

(** ** The sliding window *)

Section frames.
Context `{chain_types} {W F : Type} `{!wallet_api.ops W F}.
Implicit Types (σ : world W F) (ws : list (string * W)) (name : string).

Lemma frames_ret name {A} (a : A) : frames name (mret a : M W F A).
Proof. by intros σ. Qed.

Lemma frames_throw name {A} e : frames name (throw e : M W F A).
Proof. by intros σ. Qed.

Lemma frames_gets name {A} (f : world W F → A) : frames name (gets f).
Proof. by intros σ. Qed.

Lemma frames_tell name e : frames name (tell e : M W F unit).
Proof. by intros σ. Qed.

Lemma frames_bind name {A B} (m : M W F A) (k : A → M W F B) :
  frames name m → (∀ a, frames name (k a)) → frames name (m ≫= k).
Proof.
  intros Hm Hk σ. unfold mbind, M_bind.
  specialize (Hm σ). destruct (m σ) as [[a|e] σ']; simpl in Hm; [|done].
  specialize (Hk a σ'). destruct (k a σ') as [r σ'']. simpl in *.
  destruct Hm as (? & ? & ? & ? & ?), Hk as (? & ? & ? & ? & ?).
  split_and!; [congruence..|auto].
Qed.

Lemma frames_EVT_ASSERT name cond e :
  frames name (EVT_ASSERT cond e : M W F unit).
Proof. destruct cond; [apply frames_ret|apply frames_throw]. Qed.

Lemma frames_modify_wallets name (f : list (string * W) → list (string * W)) :
  (∀ ws, find name (f ws) = find name ws) →
  frames name (modify (λ σ, with_wallets (f (wallets σ)) σ)).
Proof.
  intros Hf σ. split_and!; try done.
  unfold unlocked_at. simpl. by rewrite Hf.
Qed.

Lemma frames_modify_files name (f : gmap string F → gmap string F) :
  frames name (modify (λ σ, with_files (f (files σ)) σ)).
Proof. by intros σ. Qed.

Lemma frames_register name name' (w : W) :
  name ≠ name' → frames name (register name' w : M W F unit).
Proof.
  intros Hne.
  apply (frames_modify_wallets name (λ ws, emplace name' w (erase name' ws))).
  intros ws. rewrite find_emplace_ne by done. by apply find_erase_ne.
Qed.

Lemma frames_call name {A} ev (r : outcome A * W) :
  frames name (call ev r : M W F (A * W)).
Proof.
  unfold call. apply frames_bind; [apply frames_tell|]. intros _.
  destruct r.1; [apply frames_ret|apply frames_throw].
Qed.

(** A call on another wallet. *)
Lemma frames_call_at name name' {A} ev (r : outcome A * W) :
  name ≠ name' → frames name (call_at name' ev r : M W F A).
Proof.
  intros Hne. unfold call_at. apply frames_bind; [apply frames_tell|].
  intros _. apply frames_bind.
  - apply (frames_modify_wallets name (replace name' r.2)).
    intros ws. by apply find_replace_ne.
  - intros _. destruct r.1; [apply frames_ret|apply frames_throw].
Qed.

(** A call on the wallet itself that leaves it unlocked. *)
Lemma frames_call_at_unlocked name {A} ev (r : outcome A * W) :
  wallet_api.is_locked r.2 = false → frames name (call_at name ev r : M W F A).
Proof.
  intros Hr. unfold call_at. apply frames_bind; [apply frames_tell|].
  intros _. apply frames_bind.
  - intros σ. split_and!; try done. intros (w & Hfind & _).
    exists r.2. split; [|done]. simpl. by eapply find_replace.
  - intros _. destruct r.1; [apply frames_ret|apply frames_throw].
Qed.

Lemma frames_fc_exists name path :
  frames name (fc_exists path : M W F bool).
Proof.
  unfold fc_exists. apply frames_bind; [apply frames_tell|]. intros _.
  apply frames_bind; [apply frames_gets|]. intros fs. apply frames_ret.
Qed.

Lemma frames_gen_password name : frames name (gen_password : M W F string).
Proof.
  unfold gen_password. apply frames_bind; [by intros σ|].
  intros key. apply frames_ret.
Qed.

Lemma frames_scan name d k ws :
  frames name (scan d k ws : M W F (option signature_type)).
Proof.
  induction ws as [|[n w] ws IH]; simpl; [apply frames_ret|].
  destruct (wallet_api.is_locked w); simpl; [done|].
  apply frames_bind; [apply frames_tell|]. intros _.
  destruct (wallet_api.try_sign_digest d k w); [apply frames_ret|done].
Qed.

Lemma frames_sign_keys name id keys stxn :
  frames name (sign_keys id keys stxn : M W F signed_transaction).
Proof.
  revert stxn. induction keys as [|pk keys IH]; intros stxn; simpl.
  - apply frames_ret.
  - apply frames_bind; [apply frames_gets|]. intros ws.
    apply frames_bind; [apply frames_scan|]. intros [sig|]; [apply IH|].
    apply frames_throw.
Qed.

End frames.

(** The routine steps of a proof that a computation frames a wallet. *)
Ltac frames_step :=
  first
    [ apply frames_ret | apply frames_throw | apply frames_gets
    | apply frames_tell | apply frames_EVT_ASSERT | apply frames_fc_exists
    | apply frames_gen_password | apply frames_call | apply frames_scan
    | apply frames_sign_keys | apply frames_modify_files
    | apply frames_register; congruence
    | apply frames_call_at; congruence
    | apply frames_bind; [|intros ?]
    | progress cbv zeta
    | match goal with
      | |- frames _ (match ?x with _ => _ end) => destruct x eqn:?
      | |- frames _ (let (_, _) := ?x in _) => destruct x
      end ].

Section window.
Context `{chain_types} {W F : Type} `{!wallet_api.ops W F}.
Context `{!wallet_api.key_contract W F}.
Implicit Types (σ : world W F) (ws : list (string * W)).
Variables (d : Z) (c : nat → Z) (r0 : nat) (name : string).
Hypothesis d_positive : 0 < d.

Lemma small_gaps_inside first last first' last' :
  (first ≤ first')%nat → (last' ≤ last)%nat →
  small_gaps d c first last → small_gaps d c first' last'.
Proof.
  intros ? ? Hgaps i ? ?. destruct (Hgaps i) as (? & ? & Hgap); [lia..|].
  split_and!; [done|done|]. intros ?. apply Hgap. lia.
Qed.

Lemma steady_frames {A} (m : M W F A) :
  frames name m → steady d c r0 name m.
Proof.
  intros Hm σ. destruct (Hm σ) as (Ht & He & Hc & Hr & Hf).
  split; [lia|]. intros (? & ? & ? & ? & ?) _.
  unfold in_window. rewrite Ht, He, Hc, Hr. split_and!; auto.
Qed.

Lemma steady_bind {A B} (m : M W F A) (k : A → M W F B) :
  steady d c r0 name m → (∀ a, steady d c r0 name (k a)) →
  steady d c r0 name (m ≫= k).
Proof.
  intros Hm Hk σ. unfold mbind, M_bind.
  destruct (Hm σ) as [Hmono Hin]. destruct (m σ) as [[a|e] σ']; [|done].
  destruct (Hk a σ') as [Hmono' Hin']. simpl in *.
  split; [lia|]. intros Hσ Hgaps.
  apply Hin'.
  - apply Hin; [done|]. eapply small_gaps_inside; [| |done]; lia.
  - eapply small_gaps_inside; [| |done]; lia.
Qed.

Lemma steady_check_timeout : steady d c r0 name check_timeout.
Proof.
  intros σ. rewrite check_timeout_eq. simpl. split.
  - destruct (checked_cases σ) as [[_ ->]|[[Hon Ht]|[Hon Ht]]]; [done| |].
    + rewrite checked_expired by done. simpl. lia.
    + rewrite checked_alive by done. simpl. lia.
  - intros (Ht & Hc & Hr & He & Hf) Hgaps.
    assert (timeout_time σ ≠ timepoint_max →
            reads (checked σ) = S (reads σ)) as Hreads.
    { intros Hon. destruct (decide (timeout_time σ ≤ clock σ (reads σ))).
      - by rewrite checked_expired.
      - rewrite checked_alive by (done || lia). done. }
    destruct (decide (timeout_time σ = timepoint_max)) as [Hoff|Hon].
    { rewrite checked_disabled in Hgaps |- * by done.
      destruct (Hgaps (pred (reads σ))) as (? & ? & _); lia. }
    rewrite Hreads in Hgaps by done.
    destruct (Hgaps (pred (reads σ))) as (Hlo & Hhi & Hgap); [lia..|].
    destruct (Hgaps (reads σ)) as (Hlo' & Hhi' & _); [lia..|].
    replace (S (pred (reads σ))) with (reads σ) in Hgap by lia.
    rewrite checked_alive; [|done|rewrite Hc, He; apply Hgap; lia].
    unfold in_window. simpl. rewrite Hc, Ht.
    split_and!; [done|done|lia| |done].
    apply time_plus_exact.
    unfold timepoint_max, system_clock_period in *. lia.
Qed.

Lemma steady_checked {A} (rest : M W F A) :
  frames name rest → steady d c r0 name (check_timeout;; rest).
Proof.
  intros Hrest. apply steady_bind; [apply steady_check_timeout|].
  intros _. by apply steady_frames.
Qed.

Lemma steady_then_ret {A} (m : M W F A) :
  steady d c r0 name m → steady d c r0 name (m;; mret ()).
Proof.
  intros Hm. apply steady_bind; [done|]. intros _.
  apply steady_frames, frames_ret.
Qed.

Lemma steady_open name' : name' ≠ name → steady d c r0 name (open name').
Proof.
  intros Hne. apply steady_checked. repeat frames_step.
Qed.

(** The calls that change the keys of a wallet. *)
Lemma frames_import_key name' wif_key (w : W) :
  wallet_api.is_locked w = false →
  frames name
    (call_at name' (ev_import_key name') (wallet_api.import_key wif_key w)
     : M W F bool).
Proof.
  intros Hw. destruct (decide (name' = name)) as [->|Hne].
  - apply frames_call_at_unlocked.
    by rewrite wallet_api.import_key_locked.
  - apply frames_call_at. congruence.
Qed.

Lemma frames_remove_key name' key (w : W) :
  wallet_api.is_locked w = false →
  frames name
    (call_at name' (ev_remove_key name') (wallet_api.remove_key key w)
     : M W F bool).
Proof.
  intros Hw. destruct (decide (name' = name)) as [->|Hne].
  - apply frames_call_at_unlocked.
    by rewrite wallet_api.remove_key_locked.
  - apply frames_call_at. congruence.
Qed.

Lemma frames_create_key name' key_type (w : W) :
  wallet_api.is_locked w = false →
  frames name
    (call_at name' (ev_create_key name') (wallet_api.create_key key_type w)
     : M W F string).
Proof.
  intros Hw. destruct (decide (name' = name)) as [->|Hne].
  - apply frames_call_at_unlocked.
    by rewrite wallet_api.create_key_locked.
  - apply frames_call_at. congruence.
Qed.

Lemma steady_perform (r : request) :
  acts_on name r = false → steady d c r0 name (perform r).
Proof.
  destruct r; cbn [perform acts_on]; intros Hr;
    try apply bool_decide_eq_false in Hr;
    try apply steady_then_ret;
    try (by apply steady_open).
  - apply steady_checked. repeat frames_step.
  - apply steady_checked. repeat frames_step.
  - apply steady_checked. repeat frames_step.
  - apply steady_checked. repeat frames_step.
  - apply steady_checked. repeat frames_step.
  - apply steady_checked. repeat frames_step.
    apply (frames_modify_wallets name (replace _ _)).
    intros ws. apply find_replace_ne. congruence.
  - apply steady_bind; [apply steady_check_timeout|]. intros _.
    apply steady_bind; [apply steady_frames, frames_gets|]. intros ws.
    apply steady_bind.
    + case_bool_decide; [by apply steady_open|].
      apply steady_frames, frames_ret.
    + intros _. apply steady_frames. repeat frames_step.
  - apply steady_checked.
    repeat first [ by apply frames_import_key | frames_step ].
  - apply steady_checked.
    repeat first [ by apply frames_remove_key | frames_step ].
  - apply steady_checked.
    repeat first [ by apply frames_create_key | frames_step ].
  - apply steady_checked. repeat frames_step.
  - apply steady_checked. repeat frames_step.
Qed.

Lemma serve_steady (rs : list request) σ :
  Forall (λ r, acts_on name r = false) rs →
  (reads σ ≤ reads (serve rs σ))%nat ∧
  (in_window d c r0 name σ →
   small_gaps d c (pred (reads σ)) (reads (serve rs σ)) →
   in_window d c r0 name (serve rs σ)).
Proof.
  intros Hrs. revert σ.
  induction Hrs as [|r rs Hr _ IH]; intros σ; [done|].
  change (serve (r :: rs) σ) with (serve rs (perform r σ).2).
  destruct (steady_perform r Hr σ) as [Hmono Hin].
  destruct (IH (perform r σ).2) as [Hmono' Hin'].
  split; [lia|]. intros Hσ Hgaps.
  apply Hin'.
  - apply Hin; [done|]. eapply small_gaps_inside; [| |done]; lia.
  - eapply small_gaps_inside; [| |done]; lia.
Qed.

End window.

Section sliding.
Context `{chain_types} {W F : Type} `{!wallet_api.ops W F}.
Context `{!wallet_api.contract W F} `{!wallet_api.key_contract W F}.
Implicit Types (σ : world W F) (ws : list (string * W)) (name : string).

Lemma set_timeout_eq t σ :
  set_timeout t σ =
  (if bool_decide (clock σ (reads σ) ≤ time_plus (clock σ (reads σ)) t)
      && bool_decide (0 < time_plus (clock σ (reads σ)) t)
   then Return () else Throw invalid_lock_timeout_exception,
   with_timeout_time (time_plus (clock σ (reads σ)) t)
     (with_reads (S (reads σ)) (with_timeout t σ))).
Proof.
  unfold set_timeout.
  cbv [mbind M_bind mret M_ret gets modify system_clock_now EVT_ASSERT throw].
  simpl. by destruct (_ && _).
Qed.

(** C6.  Let the time-out be set to a duration [d] while a wallet is
    registered and unlocked, and let requests follow that do not themselves
    lock, unlock or replace that wallet.  As long as each reading of the
    clock is less than [d] after the one before (and no reading plus [d]
    overflows the count of the clock), the wallet is registered and unlocked
    after the requests, and the expiry is the last reading plus [d]: each
    time-out step slides it forward.  When the next reading comes [d] or more
    after the last one, the time-out step of the next request locks the
    wallet, and the request, which begins with that step, runs on the state
    with the wallet locked. *)
Theorem sliding_window d name (rs : list request) σ0 :
  0 < d →
  unlocked_at name σ0 →
  Forall (λ r, acts_on name r = false) rs →
  small_gaps d (clock σ0) (reads σ0)
    (reads (serve rs (set_timeout d σ0).2)) →
  (set_timeout d σ0).1 = Return () ∧
  unlocked_at name (serve rs (set_timeout d σ0).2) ∧
  timeout_time (serve rs (set_timeout d σ0).2) =
    clock σ0 (pred (reads (serve rs (set_timeout d σ0).2)))
    + d * system_clock_period ∧
  (clock σ0 (pred (reads (serve rs (set_timeout d σ0).2)))
     + d * system_clock_period
   ≤ clock σ0 (reads (serve rs (set_timeout d σ0).2)) →
   ∃ w, find name (wallets (serve rs (set_timeout d σ0).2)) = Some w ∧
        wallet_api.is_locked w = false ∧
        find name (wallets (checked (serve rs (set_timeout d σ0).2)))
          = Some (wallet_api.lock w) ∧
        wallet_api.is_locked (wallet_api.lock w) = true) ∧
  (∀ r : request, checks_first (perform r)).
Proof.
  intros Hd Hfind Hrs Hgaps.
  rewrite set_timeout_eq in *. simpl in *.
  set (σ1 := with_timeout_time _ _) in *.
  destruct (serve_steady d (clock σ0) (reads σ0) name Hd rs σ1 Hrs)
    as [Hmono Hserve].
  change (reads σ1) with (S (reads σ0)) in Hmono.
  destruct (Hgaps (reads σ0)) as (Hlo & Hhi & _); [lia..|].
  assert (time_plus (clock σ0 (reads σ0)) d =
          clock σ0 (reads σ0) + d * system_clock_period) as Hplus.
  { apply time_plus_exact.
    unfold timepoint_max, system_clock_period in *. lia. }
  rewrite Hplus in *.
  assert (in_window d (clock σ0) (reads σ0) name σ1) as Hin
    by (unfold in_window; subst σ1; simpl; split_and!; done || lia).
  specialize (Hserve Hin Hgaps).
  destruct Hserve as (Ht & Hc & Hr & He & Hf).
  split_and!.
  - rewrite !bool_decide_true; [done| |];
      unfold system_clock_period in *; lia.
  - done.
  - done.
  - intros Hgap. destruct Hf as (w & Hf & Hw). exists w.
    destruct (Hgaps (pred (reads (serve rs σ1)))) as (_ & Hmax & _); [lia..|].
    assert (enabled (serve rs σ1)) as Hon by (unfold enabled; lia).
    rewrite checked_expired; [|done|by rewrite He, Hc].
    simpl. rewrite find_lock_each, Hf. simpl.
    unfold locked_copy. rewrite Hw.
    split_and!; [done..|]. apply wallet_api.lock_locked.
  - apply perform_checks_first.
Qed.

End sliding.

(** * The manager on the software wallet *)

Section examples.
Import soft.

(** The software wallet meets the contract. *)
Lemma soft_contract : wallet_api.contract wallet file.
Proof.
  split.
  - done.
  - intros pw w w' _ _. simpl. unfold unlock_wallet.
    destruct (String.eqb pw (password w)); [|done]. by intros [= <-].
  - intros pw w _. simpl. unfold unlock_wallet, check_password.
    by destruct (String.eqb pw (password w)).
  - intros pw w Hl. simpl. unfold unlock_wallet, check_password.
    by destruct (String.eqb pw (password w)).
  - done.
  - intros pw pw' w. simpl. unfold unlock_wallet, check_password.
    by destruct (String.eqb pw' (password w)).
Qed.

Lemma soft_key_contract : wallet_api.key_contract wallet file.
Proof. by split. Qed.

Local Existing Instance soft_contract.
Local Existing Instance soft_key_contract.

(** C2 on a manager whose time-out is off: the step changes nothing. *)
Lemma checked_methods_witness : check_timeout fresh = (Return (), fresh).
Proof.
  destruct (@checked_methods types wallet file ops)
    as (_ & _ & _ & _ & _ & _ & _ & _ & _ & _ & _ & _ & _ & Hoff & _).
  apply (Hoff fresh). reflexivity.
Defined.

(** C2 as stated fails on [own_and_use_wallet]: on a manager whose expiry
    has passed it returns with the wallet [a] still unlocked and the expiry
    where it was, while the time-out step locks [a] and moves the expiry.  It
    is not the time-out step followed by anything, since the state it leaves
    depends on an expiry that the step would have overwritten; and neither is
    [set_timeout], which leaves unlocked a wallet that the step would have
    locked. *)
Lemma own_and_use_wallet_unchecked :
  timeout_time (expired 5) ≠ timepoint_max ∧
  timeout_time (expired 5) ≤ clock (expired 5) (reads (expired 5)) ∧
  own_and_use_wallet "b" (holder false "p") (expired 5) =
    (Return (),
     with_wallets [("a", Wallet false "pw" [] ""); ("b", holder false "p")]
       (expired 5)) ∧
  wallets (checked (expired 5)) = [("a", Wallet true "pw" [] "")] ∧
  timeout_time (checked (expired 5)) = seconds 15 ∧
  ¬ checks_first (own_and_use_wallet "b" (holder false "p")) ∧
  ¬ checks_first (set_timeout 5 : M wallet file unit).
Proof.
  assert (checked (expired 5) = checked (expired 6)) as Hsame
    by (vm_compute; reflexivity).
  assert (checked (expired 5) = checked expired_locked) as Hsame'
    by (vm_compute; reflexivity).
  split_and!.
  - vm_compute. discriminate.
  - vm_compute. discriminate.
  - vm_compute. reflexivity.
  - vm_compute. reflexivity.
  - vm_compute. reflexivity.
  - intros [rest Hrest].
    pose proof (Hrest (expired 5)) as H5. pose proof (Hrest (expired 6)) as H6.
    rewrite bind_check_timeout in H5, H6. rewrite Hsame, <- H6 in H5.
    apply (f_equal (λ r, timeout_time r.2)) in H5. vm_compute in H5.
    discriminate H5.
  - intros [rest Hrest].
    pose proof (Hrest (expired 5)) as H5.
    pose proof (Hrest expired_locked) as H6.
    rewrite bind_check_timeout in H5, H6. rewrite Hsame', <- H6 in H5.
    apply (f_equal (λ r, wallets r.2)) in H5. vm_compute in H5.
    discriminate H5.
Qed.

(** C3 on a manager with no wallet: for the empty name the attempt to open
    throws [wallet_exception], for a name without a file
    [wallet_nonexistent_exception]. *)
Lemma unlock_cases_witness :
  unlock "" "pw" fresh = (Throw wallet_exception, checked (checked fresh)) ∧
  (unlock "zoe" "pw" fresh).1 = Throw wallet_nonexistent_exception.
Proof.
  split.
  - apply (proj1 (unlock_cases "" "pw" fresh)); reflexivity.
  - apply (proj1 (proj2 (unlock_cases "zoe" "pw" fresh))); reflexivity.
Defined.

(** C3 as stated fails on the empty name: it is not registered, [unlock]
    throws, the name is still not registered, and the exception is not
    [wallet_nonexistent_exception]. *)
Lemma unlock_invalid_name :
  find "" (wallets fresh) = None ∧
  (unlock "" "pw" fresh).1 = Throw wallet_exception ∧
  find "" (wallets (unlock "" "pw" fresh).2) = None ∧
  (unlock "" "pw" fresh).1 ≠ Throw wallet_nonexistent_exception.
Proof. split_and!; [reflexivity..|discriminate]. Qed.

(** C4 on a manager whose only wallet is locked. *)
Lemma get_public_keys_cases_witness :
  (get_public_keys resting).1 = Throw wallet_locked_exception.
Proof.
  apply (proj1 (proj2 (get_public_keys_cases resting))). split.
  - discriminate.
  - vm_compute. repeat constructor.
Defined.

(** C5 on a manager with no wallet. *)
Lemma create_round_trip_witness :
  (∃ w, find "alice" (wallets (create "alice" fresh).2) = Some w ∧
        wallet_api.is_locked w = false) ∧
  ∃ σ2 σ3 w',
    lock "alice" (create "alice" fresh).2 = (Return (), σ2) ∧
    unlock "alice" "PWk0" σ2 = (Return (), σ3) ∧
    find "alice" (wallets σ3) = Some w' ∧ wallet_api.is_locked w' = false.
Proof.
  apply (create_round_trip "alice" fresh "PWk0" (create "alice" fresh).2).
  vm_compute. reflexivity.
Defined.

(** C6 with a time-out of 15 seconds, set at second 10 and followed by
    three requests at seconds 20, 30 and 40. *)
Lemma sliding_window_witness :
  unlocked_at "a" (serve three_requests (set_timeout 15 keyless).2).
Proof.
  destruct (sliding_window 15 "a" three_requests keyless) as (_ & Hfind & _).
  - lia.
  - by exists (Wallet false "pw" [] "").
  - repeat constructor.
  - assert (reads (serve three_requests (set_timeout 15 keyless).2) = 4%nat)
      as -> by (vm_compute; reflexivity).
    intros i _ Hi.
    change (clock keyless) with (λ n, seconds (10 * (Z.of_nat n + 1))).
    unfold seconds, timepoint_max, system_clock_period. cbn beta. lia.
  - exact Hfind.
Defined.

(** C7 on a manager whose wallet is locked. *)
Lemma lock_cases_witness : lock "a" resting = (Return (), checked resting).
Proof.
  apply (proj1 (proj2 (proj2 (lock_cases "a" resting)))
           (Wallet true "pw" [] "")); reflexivity.
Defined.

(** C7 as stated fails on that manager: the wallet is registered and locked,
    [lock] returns, and the state is not the one before the call, whose
    time-out step has read the clock and moved the expiry. *)
Lemma lock_changes_state :
  find "a" (wallets resting) = Some (Wallet true "pw" [] "") ∧
  (lock "a" resting).1 = Return () ∧
  timeout_time (lock "a" resting).2 ≠ timeout_time resting ∧
  lock "a" resting ≠ (Return (), resting).
Proof.
  split_and!; [reflexivity|reflexivity| |].
  - vm_compute. discriminate.
  - intros Heq. apply (f_equal (λ r, reads r.2)) in Heq.
    vm_compute in Heq. discriminate Heq.
Qed.

(** C8 on a name with a slash and on a name of letters, digits, a dot, an
    underscore and a hyphen. *)
Lemma invalid_names_witness :
  create "a/b" fresh = (Throw wallet_exception, checked fresh) ∧
  valid_filename "my.wallet-1_A" = true.
Proof.
  split.
  - apply (proj1 (invalid_names "a/b" fresh)).
    right. left. vm_compute. repeat constructor.
  - apply (proj2 (invalid_names "my.wallet-1_A" fresh)).
    + discriminate.
    + vm_compute. repeat constructor.
Defined.

(** C9 on a manager with the file of [bob] and no wallet. *)
Lemma unlock_bad_password_witness :
  (unlock "bob" "wrong" stored).1 = Throw wallet_invalid_password_exception ∧
  (∃ w, find "bob" (wallets (unlock "bob" "wrong" stored).2) = Some w ∧
        wallet_api.is_locked w = true) ∧
  log (unlock "bob" "wrong" stored).2 =
  log (checked (checked stored))
    ++ [ev_load (wallet_path "bob" stored); ev_unlock "bob" "wrong"].
Proof.
  apply (unlock_bad_password "bob" "wrong" stored);
    [reflexivity..|vm_compute; discriminate].
Defined.

(** C10 on a manager whose only wallet is unlocked and holds no key. *)
Lemma get_public_keys_empty_witness :
  get_public_keys keyless = (Return ∅, checked keyless).
Proof.
  apply (get_public_keys_empty keyless).
  - exists ("a", Wallet false "pw" [] ""). split; [|reflexivity].
    vm_compute. left.
  - intros i Hi _.
    change (wallets (checked keyless))
      with [("a", Wallet false "pw" [] "")] in Hi.
    apply list_elem_of_singleton in Hi as ->. reflexivity.
Defined.

End examples.

(** * More of the manager *)

(** ** What a request changes *)

Section changes.
Context `{chain_types} {W F : Type} `{!wallet_api.ops W F}.
Implicit Types (σ : world W F) (ws : list (string * W)) (name : string).
Implicit Types (allowed : label → Prop).

Lemma changes_trans allowed σ σ' σ'' :
  changes allowed σ σ' → changes allowed σ' σ'' → changes allowed σ σ''.
Proof.
  induction 1 as [|l σ1 σ2 σ3 Hl Hc _ IH]; [done|]. intros H3.
  eapply changes_step; [done..|]. by apply IH.
Qed.

Lemma changes_one allowed l σ σ' :
  allowed l → change l σ σ' → changes allowed σ σ'.
Proof. intros. eapply changes_step; [done..|]. apply changes_refl. Qed.

Lemma changes_log allowed σ l :
  allowed by_log → changes allowed σ (with_log l σ).
Proof. intros. eapply changes_one; [done|]. constructor. Qed.

Lemma changes_checked allowed σ :
  allowed by_check → changes allowed σ (checked σ).
Proof. intros. eapply changes_one; [done|]. constructor. Qed.

(** The scans change the log only. *)
Lemma scan_logs d k ws σ : ∃ l, (scan d k ws σ).2 = with_log l σ.
Proof.
  revert σ. induction ws as [|[n w] ws IH]; intros σ; simpl.
  - exists (log σ). by rewrite with_log_same.
  - destruct (wallet_api.is_locked w); simpl; [apply IH|].
    rewrite bind_tell.
    destruct (wallet_api.try_sign_digest d k w); simpl; [by eexists|].
    destruct (IH (with_log (log σ ++ [ev_try_sign_digest n d k]) σ))
      as [l ->]. by eexists.
Qed.

Lemma sign_keys_logs id keys stxn σ :
  ∃ l, (sign_keys id keys stxn σ).2 = with_log l σ.
Proof.
  revert stxn σ. induction keys as [|pk keys IH]; intros stxn σ; simpl.
  - exists (log σ). by rewrite with_log_same.
  - rewrite bind_gets. unfold mbind, M_bind.
    destruct (scan_logs (sig_digest (trx stxn) (signatures stxn) id) pk
                (wallets σ) σ) as [l Hl].
    destruct (scan _ _ _ σ) as [[[sig|]|e] σ']; simpl in Hl; subst σ'.
    + destruct (IH (SignedTransaction _ (trx stxn) (signatures stxn ++ [sig]))
                  (with_log l σ)) as [l' ->]. by eexists.
    + by eexists.
    + by eexists.
Qed.

Lemma snd_then_ret {A} (m : M W F A) σ : ((m;; mret ()) σ).2 = (m σ).2.
Proof. unfold mbind, M_bind. by destruct (m σ) as [[a|e] σ']. Qed.

Lemma call_at_state {A} name ev (r : outcome A * W) σ :
  (call_at name ev r σ).2 =
  with_wallets (replace name r.2 (wallets σ)) (with_log (log σ ++ [ev]) σ).
Proof.
  unfold call_at. rewrite bind_tell, bind_modify. by destruct r.1.
Qed.

Lemma changes_call_at allowed {A} name ev (r : outcome A * W) σ w :
  allowed by_log →
  find name (wallets σ) = Some w →
  (wallet_api.is_locked w = false ∧ allowed (by_call name) ∨
   wallet_api.is_locked w = true ∧ allowed (by_unlock name)) →
  changes allowed σ (call_at name ev r σ).2.
Proof.
  intros Hlog Hfind Hw. rewrite call_at_state.
  eapply changes_step; [exact Hlog|apply (change_log _ (log σ ++ [ev]))|].
  destruct Hw as [[Hw Hl]|[Hw Hl]].
  - eapply changes_one; [exact Hl|].
    by apply (change_call (with_log (log σ ++ [ev]) σ) name w).
  - eapply changes_one; [exact Hl|].
    by apply (change_unlock (with_log (log σ ++ [ev]) σ) name w).
Qed.

Lemma footprint_ret allowed {A} (a : A) : footprint allowed (mret a : M W F A).
Proof. intros σ. apply changes_refl. Qed.

Lemma footprint_throw allowed {A} e : footprint allowed (throw e : M W F A).
Proof. intros σ. apply changes_refl. Qed.

Lemma footprint_bind allowed {A B} (m : M W F A) (k : A → M W F B) :
  footprint allowed m → (∀ a, footprint allowed (k a)) →
  footprint allowed (m ≫= k).
Proof.
  intros Hm Hk σ. unfold mbind, M_bind. specialize (Hm σ).
  destruct (m σ) as [[a|e] σ']; [|done].
  eapply changes_trans; [exact Hm|apply Hk].
Qed.

(** A computation that reads the state and goes on from what it read. *)
Lemma footprint_gets allowed {A B} (f : world W F → A) (k : A → M W F B) :
  (∀ σ, changes allowed σ (k (f σ) σ).2) → footprint allowed (gets f ≫= k).
Proof. intros Hk σ. apply Hk. Qed.

Lemma footprint_tell allowed e :
  allowed by_log → footprint allowed (tell e : M W F unit).
Proof. intros Hl σ. by apply changes_log. Qed.

Lemma footprint_check_timeout allowed :
  allowed by_check → footprint allowed (check_timeout : M W F unit).
Proof. intros Hl σ. by apply changes_checked. Qed.

Lemma footprint_EVT_ASSERT allowed cond e :
  footprint allowed (EVT_ASSERT cond e : M W F unit).
Proof. destruct cond; [apply footprint_ret|apply footprint_throw]. Qed.

Lemma footprint_call allowed {A} ev (r : outcome A * W) :
  allowed by_log → footprint allowed (call ev r : M W F (A * W)).
Proof.
  intros Hl. unfold call. apply footprint_bind; [by apply footprint_tell|].
  intros _. destruct r.1; [apply footprint_ret|apply footprint_throw].
Qed.

Lemma footprint_register allowed name (w : W) :
  allowed (by_register name) →
  footprint allowed (register name w : M W F unit).
Proof. intros Hl σ. eapply changes_one; [done|]. constructor. Qed.

Lemma footprint_open allowed name :
  allowed by_check → allowed by_log → allowed (by_register name) →
  footprint allowed (open name).
Proof.
  intros Hc Hl Hr. unfold open.
  apply footprint_bind; [by apply footprint_check_timeout|]. intros _.
  apply footprint_bind; [apply footprint_EVT_ASSERT|]. intros _.
  apply footprint_gets. intros σ. rewrite bind_tell, bind_gets. cbv zeta.
  destruct (negb _); simpl.
  - by apply changes_log.
  - eapply changes_step; [exact Hl|apply change_log|].
    eapply changes_one; [exact Hr|].
    apply (change_register (with_log _ σ)).
Qed.

Lemma footprint_fc_exists allowed path :
  allowed by_log → footprint allowed (fc_exists path : M W F bool).
Proof.
  intros Hl. unfold fc_exists.
  apply footprint_bind; [by apply footprint_tell|]. intros _.
  apply footprint_gets. intros σ. apply changes_refl.
Qed.

Lemma footprint_gen_password allowed :
  allowed by_draw → footprint allowed (gen_password : M W F string).
Proof.
  intros Hd. unfold gen_password. apply footprint_bind.
  - intros σ. eapply changes_one; [exact Hd|]. apply change_draw.
  - intros key. apply footprint_ret.
Qed.

Lemma footprint_create allowed name :
  allowed by_check → allowed by_log → allowed by_draw → allowed by_save →
  allowed (by_register name) → footprint allowed (create name).
Proof.
  intros Hc Hl Hd Hs Hr. unfold create.
  apply footprint_bind; [by apply footprint_check_timeout|]. intros _.
  apply footprint_bind; [apply footprint_EVT_ASSERT|]. intros _.
  apply footprint_gets. intros σ.
  generalize (path_append (dir σ) (name +:+ file_ext)). intros path.
  revert σ. apply footprint_bind; [by apply footprint_fc_exists|].
  intros [|]; [apply footprint_throw|].
  apply footprint_bind; [by apply footprint_gen_password|]. intros password.
  apply footprint_bind; [by apply footprint_call|]. intros [u1 w1].
  apply footprint_bind; [by apply footprint_call|]. intros [u2 w2].
  apply footprint_bind; [by apply footprint_tell|]. intros _.
  apply footprint_bind; [by apply footprint_call|]. intros [u3 w3].
  apply footprint_bind; [by apply footprint_tell|]. intros _.
  apply footprint_bind.
  { intros σ. eapply changes_one; [exact Hs|]. apply change_save. }
  intros _. apply footprint_bind; [by apply footprint_register|].
  intros _. apply footprint_ret.
Qed.

Lemma footprint_observer allowed {A} (body : list (string * W) → M W F A) :
  allowed by_check →
  (∀ σ, changes allowed σ (body (wallets σ) σ).2) →
  footprint allowed (check_timeout;; ws ← gets wallets; body ws).
Proof.
  intros Hc Hbody.
  apply footprint_bind; [by apply footprint_check_timeout|]. intros _.
  by apply footprint_gets.
Qed.

(** Whatever the state and whether it returns or throws, a request takes
    the manager from the state before it to the state after it by changes of
    the kinds that belong to it. *)
Lemma perform_changes (r : request) σ :
  changes (may r) σ (perform r σ).2.
Proof.
  destruct r; cbn [perform]; rewrite ?snd_then_ret.
  - apply footprint_create; simpl; eauto.
  - apply footprint_open; simpl; eauto.
  - apply (footprint_observer (may _)); [done|]. intros σ'. apply changes_refl.
  - unfold list_keys. apply (footprint_observer (may _)); [done|]. intros σ'.
    destruct (find name (wallets σ')) as [w|]; [|apply changes_refl].
    destruct (wallet_api.is_locked w); [apply changes_refl|].
    destruct (wallet_api.check_password pw w); apply changes_refl.
  - unfold get_public_keys.
    apply (footprint_observer (may _)); [done|]. intros σ'.
    destruct (bool_decide _); [apply changes_refl|].
    cbv [EVT_ASSERT negb mbind M_bind mret M_ret throw].
    destruct (merge_public_keys _ _) as [keys []]; apply changes_refl.
  - unfold get_my_signatures.
    apply (footprint_observer (may _)); [done|]. intros σ'.
    destruct (bool_decide _); [apply changes_refl|].
    cbv [EVT_ASSERT negb mbind M_bind mret M_ret throw].
    destruct (emplace_signatures _ _ _) as [sigs []]; apply changes_refl.
  - unfold lock. apply (footprint_observer (may _)); [done|]. intros σ'.
    destruct (find name (wallets σ')) as [w|] eqn:Hfind; [|apply changes_refl].
    destruct (wallet_api.is_locked w) eqn:Hw; [apply changes_refl|].
    rewrite bind_tell. simpl.
    eapply changes_step; [|apply (change_log _ (log σ' ++ [ev_lock name]))|];
      [done|].
    eapply changes_one;
      [|by apply (change_call (with_log _ σ') name w)]. simpl. eauto.
  - unfold unlock. apply (footprint_observer (may _)); [done|]. intros σ'.
    apply (footprint_bind (may (req_unlock name password))
             (if bool_decide (find name (wallets σ') = None)
              then open name else mret ())).
    { destruct (bool_decide _); [|apply footprint_ret].
      apply footprint_open; simpl; eauto. }
    intros _. apply footprint_gets. intros σ''.
    destruct (find name (wallets σ'')) as [w|] eqn:Hfind; [|apply changes_refl].
    destruct (wallet_api.is_locked w) eqn:Hw; simpl; [|apply changes_refl].
    eapply changes_call_at; [done|done|]. right. simpl. eauto.
  - unfold import_key. apply (footprint_observer (may _)); [done|]. intros σ'.
    destruct (find name (wallets σ')) as [w|] eqn:Hfind; [|apply changes_refl].
    destruct (wallet_api.is_locked w) eqn:Hw; [apply changes_refl|].
    rewrite snd_then_ret.
    eapply changes_call_at; [done|done|]. left. simpl. eauto.
  - unfold remove_key. apply (footprint_observer (may _)); [done|]. intros σ'.
    destruct (find name (wallets σ')) as [w|] eqn:Hfind; [|apply changes_refl].
    destruct (wallet_api.is_locked w) eqn:Hw; [apply changes_refl|].
    destruct (wallet_api.check_password password w); [|apply changes_refl].
    rewrite snd_then_ret.
    eapply changes_call_at; [done|done|]. left. simpl.
    split; [done|]. right. right. left. eauto.
  - unfold create_key. apply (footprint_observer (may _)); [done|]. intros σ'.
    destruct (find name (wallets σ')) as [w|] eqn:Hfind; [|apply changes_refl].
    destruct (wallet_api.is_locked w) eqn:Hw; [apply changes_refl|].
    eapply changes_call_at; [done|done|]. left. simpl.
    split; [done|]. right. right. right. eauto.
  - unfold sign_transaction.
    apply footprint_bind; [by apply footprint_check_timeout|]. intros _ σ'.
    destruct (sign_keys_logs id keys txn σ') as [l ->]. by apply changes_log.
  - unfold sign_digest. apply (footprint_observer (may _)); [done|]. intros σ'.
    unfold mbind, M_bind.
    destruct (scan_logs digest key (wallets σ') σ') as [l Hl].
    destruct (scan _ _ _ σ') as [[[sig|]|e] σ'']; simpl in *; subst σ'';
      by apply changes_log.
Qed.

End changes.

(** ** What no request does *)

Section invariants.
Context `{chain_types} {W F : Type} `{!wallet_api.ops W F}.
Implicit Types (σ : world W F) (ws : list (string * W)) (name : string).

Lemma names_replace name (w : W) ws : (replace name w ws).*1 = ws.*1.
Proof.
  induction ws as [|[n w0] ws IH]; [done|]. cbn [replace].
  destruct (decide (n = name)); rewrite !fmap_cons; [done|]. by rewrite IH.
Qed.

Lemma names_lock_each ws : (lock_each ws).1.*1 = ws.*1.
Proof.
  rewrite lock_each_wallets, <- list_fmap_compose. by apply list_fmap_ext.
Qed.

Lemma names_checked σ : names (checked σ) = names σ.
Proof.
  unfold names.
  destruct (checked_cases σ) as [[_ ->]|[[Hon Ht]|[Hon Ht]]]; [done| |].
  - rewrite checked_expired by done. simpl. apply names_lock_each.
  - by rewrite checked_alive.
Qed.

Lemma find_names name ws : find name ws = None ↔ name ∉ ws.*1.
Proof.
  induction ws as [|[n w] ws IH]; simpl.
  - split; [|done]. intros _ Hin. by inversion Hin.
  - rewrite not_elem_of_cons. destruct (decide (n = name)) as [->|Hne].
    + split; [done|]. by intros [? _].
    + rewrite IH. split; [by intros ?; split|by intros [_ ?]].
Qed.

Lemma names_erase name ws :
  (erase name ws).*1 = filter (λ n, n ≠ name) ws.*1.
Proof.
  unfold erase. induction ws as [|[n w] ws IH]; [done|].
  rewrite fmap_cons, !filter_cons. cbn [fst].
  destruct (decide (n ≠ name)); [|exact IH].
  rewrite fmap_cons. cbn [fst]. by rewrite IH.
Qed.

Lemma names_insert_entry name (w : W) ws :
  (insert_entry name w ws).*1 ≡ₚ name :: ws.*1.
Proof.
  induction ws as [|[n w0] ws IH]; [done|]. cbn [insert_entry].
  destruct (String.ltb name n); [done|].
  rewrite !fmap_cons. cbn [fst]. rewrite IH. apply Permutation_swap.
Qed.

Lemma NoDup_emplace name (w : W) ws :
  NoDup ws.*1 → NoDup (emplace name w ws).*1.
Proof.
  intros Hnd. unfold emplace.
  destruct (find name ws) eqn:Hfind; [done|].
  rewrite names_insert_entry. apply NoDup_cons. split; [|done].
  by apply find_names.
Qed.

Lemma NoDup_register name (w : W) ws :
  NoDup ws.*1 → NoDup (emplace name w (erase name ws)).*1.
Proof.
  intros Hnd. apply NoDup_emplace. rewrite names_erase.
  by apply NoDup_filter.
Qed.

Lemma find_replace_is_Some name name' (w' : W) ws :
  is_Some (find name (replace name' w' ws)) ↔ is_Some (find name ws).
Proof.
  rewrite <- !not_eq_None_Some, !find_names. by rewrite names_replace.
Qed.

Lemma find_register_is_Some name name' (w : W) ws :
  is_Some (find name ws) →
  is_Some (find name (emplace name' w (erase name' ws))).
Proof.
  intros Hsome. destruct (decide (name = name')) as [->|Hne].
  - rewrite find_emplace; [done|apply find_erase].
  - by rewrite find_emplace_ne, find_erase_ne.
Qed.

(** One change keeps the registered names registered and the names
    unique. *)
Lemma change_registry l σ σ' :
  change l σ σ' →
  (∀ name, is_Some (find name (wallets σ)) →
           is_Some (find name (wallets σ'))) ∧
  (NoDup (names σ) → NoDup (names σ')).
Proof.
  destruct 1.
  - split; [|by rewrite names_checked].
    intros name. rewrite <- !not_eq_None_Some. by rewrite checked_find_None.
  - done.
  - done.
  - unfold names. simpl. split; [|by rewrite names_replace].
    intros n. by rewrite find_replace_is_Some.
  - unfold names. simpl. split; [|by rewrite names_replace].
    intros n. by rewrite find_replace_is_Some.
  - unfold names. simpl. split; [|apply NoDup_register].
    intros n. apply find_register_is_Some.
  - done.
Qed.

Lemma changes_registry allowed σ σ' :
  changes allowed σ σ' →
  (∀ name, is_Some (find name (wallets σ)) →
           is_Some (find name (wallets σ'))) ∧
  (NoDup (names σ) → NoDup (names σ')).
Proof.
  induction 1 as [|l σ1 σ2 σ3 _ Hc _ [IH1 IH2]]; [done|].
  destruct (change_registry _ _ _ Hc) as [H1 H2].
  split; [intros name ?; by apply IH1, H1|intros ?; by apply IH2, H2].
Qed.

(** X1.  The registry only grows and its names stay unique.  Whatever a
    request to a checked method is and whether it returns or throws, every
    name that is registered before it is registered after it, and if no name
    is registered twice before it none is after it.  The same holds of
    [own_and_use_wallet]. *)
Theorem registry_grows σ :
  (∀ (r : request) name,
     is_Some (find name (wallets σ)) →
     is_Some (find name (wallets (perform r σ).2))) ∧
  (∀ r : request, NoDup (names σ) → NoDup (names (perform r σ).2)) ∧
  (∀ name' w name,
     is_Some (find name (wallets σ)) →
     is_Some (find name (wallets (own_and_use_wallet name' w σ).2))) ∧
  (∀ name' w,
     NoDup (names σ) → NoDup (names (own_and_use_wallet name' w σ).2)).
Proof.
  split_and!.
  - intros r. apply (changes_registry _ _ _ (perform_changes r σ)).
  - intros r. apply (changes_registry _ _ _ (perform_changes r σ)).
  - intros name' w name Hsome. unfold own_and_use_wallet.
    rewrite bind_gets. destruct (bool_decide _); [done|]. simpl.
    destruct (decide (name = name')) as [->|Hne].
    + unfold emplace. destruct Hsome as [w0 Hw0]. by rewrite !Hw0.
    + by rewrite find_emplace_ne.
  - intros name' w Hnd. unfold own_and_use_wallet.
    rewrite bind_gets. destruct (bool_decide _); [done|]. simpl.
    by apply NoDup_emplace.
Qed.

End invariants.

Section untouched.
Context `{chain_types} {W F : Type} `{!wallet_api.ops W F}.
Implicit Types (σ : world W F) (ws : list (string * W)) (name : string).
Implicit Types (allowed : label → Prop).

Lemma may_target (r : request) name :
  may r (by_call name) ∨ may r (by_unlock name) ∨ may r (by_register name) →
  target r = Some name.
Proof.
  simpl. intros [Hr|[Hr|Hr]]; destruct_or?; destruct_and?;
    repeat match goal with H : ∃ _, _ |- _ => destruct H end; by subst.
Qed.

Lemma changes_locked allowed name w σ σ' :
  ¬ allowed (by_unlock name) → ¬ allowed (by_register name) →
  wallet_api.is_locked w = true →
  changes allowed σ σ' →
  find name (wallets σ) = Some w → find name (wallets σ') = Some w.
Proof.
  intros Hu Hr Hw. induction 1 as [|l σ1 σ2 σ3 Hl Hc _ IH]; [done|].
  intros Hfind. apply IH. clear IH. destruct Hc; simpl; try done.
  - by apply checked_find_locked.
  - destruct (decide (name0 = name)) as [->|Hne]; [congruence|].
    by rewrite find_replace_ne.
  - destruct (decide (name0 = name)) as [->|Hne]; [done|].
    by rewrite find_replace_ne.
  - destruct (decide (name0 = name)) as [->|Hne]; [done|].
    by rewrite find_emplace_ne, find_erase_ne.
Qed.

(** X2.  A locked wallet is left alone.  If a name is registered with a
    locked wallet, then after any request other than [unlock], [create] or
    [open] of that name, returned or thrown, the name is registered with the
    same wallet: the time-out step, [lock], [list_keys], the key methods and
    the signing methods call nothing on a locked wallet. *)
Theorem locked_wallet_untouched (r : request) name w σ :
  find name (wallets σ) = Some w → wallet_api.is_locked w = true →
  r ≠ req_create name → r ≠ req_open name → (∀ p, r ≠ req_unlock name p) →
  find name (wallets (perform r σ).2) = Some w.
Proof.
  intros Hfind Hw Hc Ho Hu.
  apply (changes_locked (may r) name w σ); [| |done|apply perform_changes|done].
  - simpl. intros [p ->]. by apply (Hu p).
  - simpl. intros [->|[->|[p ->]]]; [done|done|by apply (Hu p)].
Qed.

(** The states in which [create] ends. *)
Lemma create_cases name σ :
  (valid_filename name = false ∧
   create name σ = (Throw wallet_exception, checked σ)) ∨
  (valid_filename name = true ∧ is_Some (files σ !! wallet_path name σ) ∧
   create name σ =
   (Throw wallet_exist_exception,
    with_log (log (checked σ) ++ [ev_exists (wallet_path name σ)])
      (checked σ))) ∨
  (valid_filename name = true ∧ files σ !! wallet_path name σ = None ∧
   ∃ e l, create name σ =
          (Throw e, with_log l (with_draws (S (draws σ)) (checked σ)))) ∨
  (valid_filename name = true ∧ files σ !! wallet_path name σ = None ∧
   ∃ w l, create name σ =
          (Return (password_prefix +:+
                   private_key_to_string (entropy σ (draws σ))),
           with_wallets (emplace name w (erase name (wallets (checked σ))))
             (with_files (wallet_api.save_wallet_file w (files σ))
                (with_log l (with_draws (S (draws σ)) (checked σ)))))).
Proof.
  unfold create. rewrite bind_check_timeout.
  destruct (valid_filename name); [right|by left].
  rewrite <- (wallet_path_checked name σ), <- (checked_files σ).
  destruct (checked_frame σ) as (_ & _ & _ & _ & <- & <-).
  generalize (checked σ). clear σ. intros σ. unfold wallet_path.
  cbv [EVT_ASSERT mbind M_bind mret M_ret gets fc_exists tell modify
       gen_password generate call throw register].
  cbn [fst snd files with_log dir draws entropy with_draws log wallets
       with_files with_wallets].
  case_bool_decide as Hfile.
  { left. by split_and!. }
  right. apply eq_None_not_Some in Hfile.
  set (pw := (password_prefix +:+ _)%string).
  destruct (wallet_api.set_password pw wallet_api.make) as [[[]|e] w1];
    cbn [fst snd]; [|left; split_and!; [done..|by eexists _, _]].
  destruct (wallet_api.unlock pw (wallet_api.set_wallet_filename _ w1))
    as [[[]|e] w2]; cbn [fst snd]; [|left; split_and!; [done..|by eexists _, _]].
  destruct (wallet_api.unlock pw (wallet_api.lock w2)) as [[[]|e] w3];
    cbn [fst snd]; [|left; split_and!; [done..|by eexists _, _]].
  right. split_and!; [done..|]. exists w3. by eexists.
Qed.

Lemma changes_disabled allowed σ σ' :
  timeout_time σ = timepoint_max → changes allowed σ σ' →
  timeout_time σ' = timepoint_max ∧ reads σ' = reads σ ∧
  timeout σ' = timeout σ.
Proof.
  intros Hoff Hch. revert Hoff.
  induction Hch as [|l σ1 σ2 σ3 Hl Hc _ IH]; [done|]. intros Hoff.
  assert (timeout_time σ2 = timepoint_max ∧ reads σ2 = reads σ1 ∧
          timeout σ2 = timeout σ1) as (Hoff2 & <- & <-).
  { destruct Hc; simpl; try done. by rewrite checked_disabled. }
  by apply IH.
Qed.

(** X4.  With the time-out off it stays off.  If the expiry is the sentinel
    before a request, it is the sentinel after it, returned or thrown, the
    duration is the same, and the clock has not been read. *)
Theorem disabled_stays_disabled (r : request) σ :
  timeout_time σ = timepoint_max →
  timeout_time (perform r σ).2 = timepoint_max ∧
  reads (perform r σ).2 = reads σ ∧
  timeout (perform r σ).2 = timeout σ.
Proof.
  intros Hoff. by apply (changes_disabled (may r)), perform_changes.
Qed.

End untouched.

Section other_wallets.
Context `{chain_types} {W F : Type} `{!wallet_api.ops W F}.
Context `{!wallet_api.contract W F}.
Implicit Types (σ : world W F) (ws : list (string * W)) (name : string).
Implicit Types (allowed : label → Prop).

Lemma locked_copy_twice (w : W) : locked_copy (locked_copy w) = locked_copy w.
Proof.
  unfold locked_copy. destruct (wallet_api.is_locked w) eqn:Hw.
  - by rewrite Hw.
  - by rewrite wallet_api.lock_locked.
Qed.

Lemma changes_others allowed name σ σ' :
  ¬ allowed (by_call name) → ¬ allowed (by_unlock name) →
  ¬ allowed (by_register name) →
  changes allowed σ σ' →
  find name (wallets σ') = find name (wallets σ) ∨
  find name (wallets σ') = locked_copy <$> find name (wallets σ).
Proof.
  intros Hc Hu Hr. induction 1 as [|l σ1 σ2 σ3 Hl Hch _ IH]; [by left|].
  assert (find name (wallets σ2) = find name (wallets σ1) ∨
          find name (wallets σ2) = locked_copy <$> find name (wallets σ1))
    as Hstep.
  { destruct Hch; simpl; try by left.
    - destruct (find name (wallets σ)) as [w|] eqn:Hfind.
      + destruct (checked_find name σ w Hfind) as [->| ->]; [by left|by right].
      + left. by apply checked_find_None.
    - left. destruct (decide (name0 = name)) as [->|Hne]; [done|].
      by rewrite find_replace_ne.
    - left. destruct (decide (name0 = name)) as [->|Hne]; [done|].
      by rewrite find_replace_ne.
    - left. destruct (decide (name0 = name)) as [->|Hne]; [done|].
      by rewrite find_emplace_ne, find_erase_ne. }
  destruct IH as [-> | ->], Hstep as [-> | ->];
    try (by left); try (by right).
  right. destruct (find name (wallets σ1)); [|done]. simpl.
  by rewrite locked_copy_twice.
Qed.

(** X5.  A request leaves the other wallets alone.  A wallet registered
    under a name other than the one the request is given is, after the
    request, the wallet it was, or that wallet locked by the time-out step;
    a name that was not registered is still not registered. *)
Theorem other_wallets_kept (r : request) name σ :
  target r ≠ Some name →
  find name (wallets (perform r σ).2) = find name (wallets σ) ∨
  find name (wallets (perform r σ).2) = locked_copy <$> find name (wallets σ).
Proof.
  intros Hr.
  apply (changes_others (may r)); [..|apply perform_changes];
    intros Hl; apply Hr, may_target; auto.
Qed.

End other_wallets.

(** ** Which method has a wallet file written *)

Section saving.
Context `{chain_types} {W F : Type} `{!wallet_api.ops W F}.
Implicit Types (σ : world W F) (ws : list (string * W)) (name : string).


















End saving.

(** ** The methods one by one *)

Section methods.
Context `{chain_types} {W F : Type} `{!wallet_api.ops W F}.
Implicit Types (σ : world W F) (ws : list (string * W)) (name : string).

Lemma list_keys_eq name pw σ :
  list_keys name pw σ =
  (match find name (wallets (checked σ)) with
   | None => Throw wallet_nonexistent_exception
   | Some w =>
       if wallet_api.is_locked w then Throw wallet_locked_exception
       else match wallet_api.check_password pw w with
            | Throw e => Throw e
            | Return _ => Return (wallet_api.list_keys w)
            end
   end, checked σ).
Proof.
  unfold list_keys. rewrite bind_check_timeout, bind_gets.
  destruct (find name (wallets (checked σ))) as [w|]; [|done].
  destruct (wallet_api.is_locked w); [done|].
  by destruct (wallet_api.check_password pw w).
Qed.

Lemma get_my_signatures_eq id σ :
  get_my_signatures id σ =
  ((if bool_decide (wallets (checked σ) = [])
    then Throw wallet_not_available_exception
    else if (emplace_signatures id (wallets (checked σ)) (∅, true)).2
         then Throw wallet_locked_exception
         else Return (emplace_signatures id (wallets (checked σ)) (∅, true)).1),
   checked σ).
Proof.
  unfold get_my_signatures. rewrite bind_check_timeout, bind_gets.
  destruct (bool_decide (wallets (checked σ) = [])); [done|].
  cbv [EVT_ASSERT negb mbind M_bind mret M_ret].
  destruct (emplace_signatures id (wallets (checked σ)) (∅, true)) as [sigs b].
  by destruct b.
Qed.

(** X6.  The requests that list or sign change nothing but the log, beyond
    the time-out step: after [list_wallets], [list_keys], [get_public_keys],
    [get_my_signatures], [sign_transaction] or [sign_digest], returned or
    thrown, the manager is in the state the time-out step leaves, up to the
    log; after the four that list, it is in that state exactly. *)
Theorem observers_keep_state (r : request) σ :
  observes r = true →
  (∃ l, (perform r σ).2 = with_log l (checked σ)) ∧
  ((∀ txn keys id, r ≠ req_sign_transaction txn keys id) →
   (∀ d k, r ≠ req_sign_digest d k) →
   (perform r σ).2 = checked σ).
Proof.
  intros Hr.
  destruct r; try discriminate Hr; cbn [perform]; rewrite snd_then_ret.
  - unfold list_wallets. rewrite bind_check_timeout, bind_gets. simpl.
    split; [|done]. exists (log (checked σ)). symmetry. apply with_log_same.
  - rewrite list_keys_eq. simpl. split; [|done].
    exists (log (checked σ)). symmetry. apply with_log_same.
  - rewrite get_public_keys_eq. simpl. split; [|done].
    exists (log (checked σ)). symmetry. apply with_log_same.
  - rewrite get_my_signatures_eq. simpl. split; [|done].
    exists (log (checked σ)). symmetry. apply with_log_same.
  - split; [|intros Hne; by destruct (Hne txn keys id)].
    unfold sign_transaction. rewrite bind_check_timeout.
    apply sign_keys_logs.
  - split; [|intros _ Hne; by destruct (Hne digest key)].
    unfold sign_digest. rewrite bind_check_timeout, bind_gets.
    unfold mbind, M_bind.
    destruct (scan_logs digest key (wallets (checked σ)) (checked σ))
      as [l Hl].
    destruct (scan _ _ _ (checked σ)) as [[[sig|]|e] σ'']; simpl in *;
      subst σ''; by eexists.
Qed.

(** X7.  [list_keys] releases the keys of a wallet only when the wallet is
    registered, unlocked and the password verifies: it returns exactly the
    key pairs of that wallet in that case, throws
    [wallet_nonexistent_exception] for a name that is not registered,
    [wallet_locked_exception] for a locked wallet and the exception of
    [check_password] otherwise.  The conditions are those of the state the
    time-out step leaves, and that state is the one it ends in. *)
Theorem list_keys_cases name pw σ :
  (list_keys name pw σ).2 = checked σ ∧
  (∀ keys, (list_keys name pw σ).1 = Return keys ↔
           ∃ w, find name (wallets (checked σ)) = Some w ∧
                wallet_api.is_locked w = false ∧
                wallet_api.check_password pw w = Return () ∧
                keys = wallet_api.list_keys w) ∧
  (find name (wallets σ) = None →
   (list_keys name pw σ).1 = Throw wallet_nonexistent_exception) ∧
  (∀ w, find name (wallets (checked σ)) = Some w →
        wallet_api.is_locked w = true →
        (list_keys name pw σ).1 = Throw wallet_locked_exception) ∧
  (∀ w e, find name (wallets (checked σ)) = Some w →
          wallet_api.is_locked w = false →
          wallet_api.check_password pw w = Throw e →
          (list_keys name pw σ).1 = Throw e).
Proof.
  rewrite list_keys_eq. simpl. rewrite <- (checked_find_None name σ).
  split_and!.
  - done.
  - intros keys. split.
    + destruct (find name (wallets (checked σ))) as [w|]; [|done].
      destruct (wallet_api.is_locked w) eqn:Hw; [done|].
      destruct (wallet_api.check_password pw w) as [[]|e] eqn:Hc; [|done].
      intros [= <-]. by exists w.
    + intros (w & -> & -> & -> & ->). done.
  - by intros ->.
  - by intros w -> ->.
  - by intros w e -> -> ->.
Qed.

(** X8.  The key methods refuse a wallet that is not there or is locked:
    [import_key], [remove_key] and [create_key] throw
    [wallet_nonexistent_exception] for a name that is not registered and
    [wallet_locked_exception] for a locked wallet, and [remove_key] throws
    the exception of [check_password] when the password does not verify.  In
    each case the manager has only asked the wallet whether it is locked and,
    in [remove_key], to check the password; the wallet's [import_key],
    [remove_key] or [create_key] is not called, and the state, with its
    wallets and its log of calls, is the one the time-out step leaves. *)
Theorem key_methods_refuse name σ :
  (find name (wallets σ) = None →
   ∀ p k t,
     import_key name k σ = (Throw wallet_nonexistent_exception, checked σ) ∧
     remove_key name p k σ = (Throw wallet_nonexistent_exception, checked σ) ∧
     create_key name t σ = (Throw wallet_nonexistent_exception, checked σ)) ∧
  (∀ w, find name (wallets (checked σ)) = Some w →
        wallet_api.is_locked w = true →
        ∀ p k t,
          import_key name k σ = (Throw wallet_locked_exception, checked σ) ∧
          remove_key name p k σ = (Throw wallet_locked_exception, checked σ) ∧
          create_key name t σ = (Throw wallet_locked_exception, checked σ)) ∧
  (∀ w p e, find name (wallets (checked σ)) = Some w →
            wallet_api.is_locked w = false →
            wallet_api.check_password p w = Throw e →
            ∀ k, remove_key name p k σ = (Throw e, checked σ)).
Proof.
  split_and!.
  - intros Hfind%checked_find_None p k t.
    unfold import_key, remove_key, create_key.
    by rewrite !bind_check_timeout, !bind_gets, Hfind.
  - intros w Hfind Hw p k t.
    unfold import_key, remove_key, create_key.
    rewrite !bind_check_timeout, !bind_gets, Hfind. by rewrite Hw.
  - intros w p e Hfind Hw Hc k. unfold remove_key.
    rewrite !bind_check_timeout, !bind_gets, Hfind. by rewrite Hw, Hc.
Qed.




(** X10.  [own_and_use_wallet] never replaces a wallet and never runs the
    time-out step.  For a name that is registered it throws and the state is
    untouched.  For a name that is not, it returns, the name is registered
    with the wallet given, locked or not, every other name is registered as
    before, and the time-out, the expiry, the clock, the files and the log
    are untouched. *)
Theorem own_and_use_wallet_cases name w σ :
  (is_Some (find name (wallets σ)) →
   own_and_use_wallet name w σ = (Throw fc_exception, σ)) ∧
  (find name (wallets σ) = None →
   ∃ ws, own_and_use_wallet name w σ = (Return (), with_wallets ws σ) ∧
         find name ws = Some w ∧
         ∀ n, n ≠ name → find n ws = find n (wallets σ)).
Proof.
  unfold own_and_use_wallet. rewrite bind_gets. split.
  - intros [w0 Hw0]. by rewrite bool_decide_true by (by rewrite Hw0).
  - intros Hfind. rewrite bool_decide_false by (by intros []).
    eexists. split; [done|]. split.
    + by apply find_emplace.
    + intros n Hn. by apply find_emplace_ne.
Qed.

Lemma foldl_signatures_elem id (l : list (public_key_type * private_key_type))
    (acc : gset signature_type) sig :
  sig ∈ foldl (λ r (i : public_key_type * private_key_type),
                 r ∪ {[ private_key_sign i.2 id ]}) acc l ↔
  sig ∈ acc ∨ ∃ i, i ∈ l ∧ sig = private_key_sign i.2 id.
Proof.
  revert acc. induction l as [|i l IH]; intros acc; simpl.
  - split; [by left|]. intros [?|(i & Hi & _)]; [done|]. by inversion Hi.
  - rewrite IH, elem_of_union, elem_of_singleton. split.
    + intros [[? | ->]|(j & Hj & ->)].
      * by left.
      * right. exists i. split; [left|done].
      * right. exists j. split; [by right|done].
    + intros [?|(j & Hj & ->)]; [by left; left|].
      apply elem_of_cons in Hj as [->|Hj]; [by left; right|].
      right. by exists j.
Qed.

Lemma emplace_signatures_locked id ws acc :
  (emplace_signatures id ws acc).2 = true ↔
  acc.2 = true ∧ Forall (λ i, wallet_api.is_locked i.2 = true) ws.
Proof.
  revert acc. induction ws as [|[n w] ws IH]; intros acc; simpl.
  - split; [by intros ->|by intros [-> _]].
  - rewrite IH. simpl. rewrite andb_true_iff, Forall_cons. simpl. tauto.
Qed.

Lemma emplace_signatures_elem id ws acc sig :
  sig ∈ (emplace_signatures id ws acc).1 ↔
  sig ∈ acc.1 ∨
  ∃ i kp, i ∈ ws ∧ wallet_api.is_locked i.2 = false ∧
          kp ∈ wallet_api.list_keys i.2 ∧ sig = private_key_sign kp.2 id.
Proof.
  revert acc. induction ws as [|[n w] ws IH]; intros acc; simpl.
  - split; [by left|]. intros [?|(i & kp & Hi & _)]; [done|]. by inversion Hi.
  - rewrite IH. simpl. split.
    + intros [Hk|(i & kp & Hi & Hl & Hkp & Hk)].
      * destruct (wallet_api.is_locked w) eqn:Hw; simpl in Hk; [by left|].
        apply foldl_signatures_elem in Hk as [Hk|(kp & Hkp & ->)]; [by left|].
        right. exists (n, w), kp. split_and!; [left|done..].
      * right. exists i, kp. split_and!; [by right|done..].
    + intros [Hk|(i & kp & Hi & Hl & Hkp & Hk)].
      * left. destruct (wallet_api.is_locked w); simpl; [done|].
        apply foldl_signatures_elem. by left.
      * apply elem_of_cons in Hi as [->|Hi].
        -- left. simpl in Hl, Hkp. rewrite Hl. simpl.
           apply foldl_signatures_elem. right. by exists kp.
        -- right. by exists i, kp.
Qed.

(** X11.  [get_my_signatures] throws [wallet_not_available_exception]
    exactly when the registry is empty and [wallet_locked_exception] exactly
    when it is not empty and every wallet is locked once the time-out step is
    done.  Otherwise it returns the signatures of the chain id with the
    private keys of the unlocked wallets: a signature is in the result exactly
    when some key pair of some unlocked wallet signs to it; no key of a locked
    wallet is used. *)
Theorem get_my_signatures_cases id σ :
  (get_my_signatures id σ).2 = checked σ ∧
  ((get_my_signatures id σ).1 = Throw wallet_not_available_exception ↔
   wallets σ = []) ∧
  ((get_my_signatures id σ).1 = Throw wallet_locked_exception ↔
   wallets σ ≠ [] ∧
   Forall (λ i, wallet_api.is_locked i.2 = true) (wallets (checked σ))) ∧
  (wallets σ ≠ [] →
   ¬ Forall (λ i, wallet_api.is_locked i.2 = true) (wallets (checked σ)) →
   ∃ sigs, (get_my_signatures id σ).1 = Return sigs ∧
     ∀ sig, sig ∈ sigs ↔
            ∃ i kp, i ∈ wallets (checked σ) ∧
                    wallet_api.is_locked i.2 = false ∧
                    kp ∈ wallet_api.list_keys i.2 ∧
                    sig = private_key_sign kp.2 id).
Proof.
  rewrite get_my_signatures_eq. simpl.
  pose proof (emplace_signatures_locked id (wallets (checked σ)) (∅, true))
    as Hall.
  rewrite <- (checked_wallets_nil σ).
  split_and!; [done| | |].
  - case_bool_decide as Hnil; [done|].
    destruct (emplace_signatures _ _ _).2; split; done.
  - case_bool_decide as Hnil.
    + split; [done|]. by intros [? _].
    + destruct (emplace_signatures _ _ _).2.
      * split; [|done]. intros _. split; [done|]. by apply Hall.
      * split; [done|]. intros [_ Hl].
        assert (false = true) by (by apply Hall). done.
  - intros Hne Hsome. rewrite bool_decide_false by done.
    destruct (emplace_signatures _ _ _).2 eqn:Hb.
    + destruct Hsome. by apply Hall.
    + eexists. split; [done|]. intros sig.
      rewrite emplace_signatures_elem. simpl.
      split; [|by right]. intros [Hk|Hk]; [|done].
      by apply not_elem_of_empty in Hk.
Qed.

End methods.

(** ** Locking: [lock_all], the expiry and [set_timeout] *)

Section locking.
Context `{chain_types} {W F : Type} `{!wallet_api.ops W F}.
Implicit Types (σ : world W F) (ws : list (string * W)) (name : string).

Lemma lock_each_all_locked ws :
  Forall (λ i, wallet_api.is_locked i.2 = true) ws → lock_each ws = (ws, []).
Proof.
  induction 1 as [|[n w] ws Hw _ IH]; [done|]. simpl in *.
  by rewrite IH, Hw.
Qed.

Lemma all_locked_checked σ : all_locked σ → checked σ = σ ∨ all_locked (checked σ).
Proof.
  intros Hall.
  destruct (checked_cases σ) as [[_ ->]|[[Hon Ht]|[Hon Ht]]]; [by left| |];
    right; unfold all_locked.
  - rewrite checked_expired by done. simpl.
    by rewrite lock_each_all_locked.
  - by rewrite checked_alive.
Qed.

Lemma all_locked_find name σ w :
  all_locked σ → find name (wallets σ) = Some w →
  wallet_api.is_locked w = true.
Proof.
  unfold all_locked. induction 1 as [|[n w0] ws Hw _ IH]; [done|]. simpl.
  destruct (decide (n = name)); [|done]. by intros [= <-].
Qed.

Lemma scan_all_locked d k ws σ :
  Forall (λ i, wallet_api.is_locked i.2 = true) ws →
  scan d k ws σ = (Return None, σ).
Proof.
  induction 1 as [|[n w] ws Hw _ IH]; [done|]. simpl in *. by rewrite Hw.
Qed.

(** X12.  When every wallet is locked, nothing signs and no key is given
    out.  If the wallets are all locked once the time-out step is done, as
    they are when they were all locked before it, then [sign_digest] and
    [sign_transaction] with a key to sign for throw
    [wallet_missing_pub_key_exception] for the first key without asking any
    wallet, [get_public_keys] and [get_my_signatures] throw, and [list_keys]
    and the key methods throw for every name. *)
Theorem all_locked_refuses σ :
  (all_locked σ → all_locked (checked σ)) ∧
  (all_locked (checked σ) →
   (∀ d k, sign_digest d k σ =
           (Throw (wallet_missing_pub_key_exception k), checked σ)) ∧
   (∀ txn k keys id,
      sign_transaction txn (k :: keys) id σ =
      (Throw (wallet_missing_pub_key_exception k), checked σ)) ∧
   (∃ e, get_public_keys σ = (Throw e, checked σ)) ∧
   (∀ id, ∃ e, get_my_signatures id σ = (Throw e, checked σ)) ∧
   (∀ name pw, ∃ e, list_keys name pw σ = (Throw e, checked σ)) ∧
   (∀ name p k t, ∃ e,
      import_key name k σ = (Throw e, checked σ) ∧
      remove_key name p k σ = (Throw e, checked σ) ∧
      create_key name t σ = (Throw e, checked σ))).
Proof.
  split.
  { intros Hall. by destruct (all_locked_checked σ Hall) as [->|?]. }
  intros Hall. split_and!.
  - intros d k. unfold sign_digest. rewrite bind_check_timeout, bind_gets.
    erewrite bind_Return; [|by apply scan_all_locked]. done.
  - intros txn k keys id. unfold sign_transaction.
    rewrite bind_check_timeout. cbn [sign_keys]. rewrite bind_gets.
    erewrite bind_Return; [|by apply scan_all_locked]. done.
  - rewrite get_public_keys_eq. destruct (bool_decide _); [by eexists|].
    assert ((merge_public_keys (wallets (checked σ)) (∅, true)).2 = true)
      as -> by (by apply merge_public_keys_locked).
    by eexists.
  - intros id. rewrite get_my_signatures_eq.
    destruct (bool_decide _); [by eexists|].
    assert ((emplace_signatures id (wallets (checked σ)) (∅, true)).2 = true)
      as -> by (by apply emplace_signatures_locked).
    by eexists.
  - intros name pw. rewrite list_keys_eq.
    destruct (find name (wallets (checked σ))) as [w|] eqn:Hfind;
      [|by eexists].
    rewrite (all_locked_find name _ w Hall Hfind). by eexists.
  - intros name p k t. unfold import_key, remove_key, create_key.
    rewrite !bind_check_timeout, !bind_gets.
    destruct (find name (wallets (checked σ))) as [w|] eqn:Hfind;
      [|by eexists].
    rewrite (all_locked_find name _ w Hall Hfind). by eexists.
Qed.

End locking.

Section locking_contract.
Context `{chain_types} {W F : Type} `{!wallet_api.ops W F}.
Context `{!wallet_api.contract W F}.
Implicit Types (σ : world W F) (ws : list (string * W)) (name : string).

Lemma lock_each_locks ws :
  Forall (λ i, wallet_api.is_locked i.2 = true) (lock_each ws).1.
Proof.
  rewrite lock_each_wallets. apply Forall_fmap, Forall_forall.
  intros [n w] _. simpl. unfold locked_copy.
  destruct (wallet_api.is_locked w) eqn:Hw; [done|].
  apply wallet_api.lock_locked.
Qed.

(** X13.  [lock_all] locks every wallet and nothing else.  It returns; after
    it every wallet is locked; the names are the same, in the same order; a
    wallet that was locked is the wallet it was, without a call, and one that
    was unlocked has had its [lock] called once; the time-out, the expiry,
    the clock and the files are untouched; and a second [lock_all] changes
    nothing. *)
Theorem lock_all_locks σ :
  (lock_all σ).1 = Return () ∧
  all_locked (lock_all σ).2 ∧
  names (lock_all σ).2 = names σ ∧
  (∀ name w, find name (wallets σ) = Some w →
             find name (wallets (lock_all σ).2) =
             Some (if wallet_api.is_locked w then w else wallet_api.lock w)) ∧
  log (lock_all σ).2 =
    log σ ++ ((λ i : string * W, ev_lock i.1)
                <$> filter (λ i, wallet_api.is_locked i.2 = false) (wallets σ)) ∧
  (timeout (lock_all σ).2 = timeout σ ∧
   timeout_time (lock_all σ).2 = timeout_time σ ∧
   reads (lock_all σ).2 = reads σ ∧ files (lock_all σ).2 = files σ) ∧
  lock_all (lock_all σ).2 = (Return (), (lock_all σ).2).
Proof.
  rewrite !lock_all_eq. simpl. split_and!; try done.
  - apply lock_each_locks.
  - unfold names. simpl. apply names_lock_each.
  - intros name w Hfind. by rewrite find_lock_each, Hfind.
  - by rewrite lock_each_events.
  - rewrite (lock_each_all_locked (lock_each (wallets σ)).1)
      by apply lock_each_locks.
    simpl. rewrite app_nil_r. by destruct σ.
Qed.

(** X14.  When the time-out has expired, the time-out step of the next
    checked method locks every wallet: with the time-out on and the clock at
    the expiry or past it, every wallet is locked once the step is done, the
    clock has been read once, the names are those before, and
    [list_wallets] shows every name without the mark of an unlocked
    wallet. *)
Theorem expiry_locks_all σ :
  overdue σ →
  all_locked (checked σ) ∧
  names (checked σ) = names σ ∧
  reads (checked σ) = S (reads σ) ∧
  timeout_time (checked σ) = time_plus (clock σ (reads σ)) (timeout σ) ∧
  list_wallets σ = (Return (names σ), checked σ).
Proof.
  intros [Hon Hexp].
  assert (all_locked (checked σ)) as Hall.
  { unfold all_locked. rewrite checked_expired by done. simpl.
    apply lock_each_locks. }
  split_and!; [done|apply names_checked|by rewrite checked_expired..|].
  unfold list_wallets. rewrite bind_check_timeout, bind_gets.
  unfold mret, M_ret. do 2 f_equal.
  rewrite <- names_checked. unfold names.
  apply list_fmap_ext. intros i [n w] Hi. simpl.
  assert (wallet_api.is_locked w = true) as ->; [|done].
  unfold all_locked in Hall. rewrite Forall_forall in Hall.
  apply (Hall (n, w)). by eapply list_elem_of_lookup_2.
Qed.

(** X15.  [set_timeout] stores the duration and the expiry before it checks
    them, and a time-out that is not positive locks on the next step.  With no
    overflow of the count and the new expiry below the sentinel,
    [set_timeout(t)] returns exactly when [t] is not
    negative and the new expiry is positive, and throws
    [invalid_lock_timeout_exception] otherwise; either way the duration is
    [t] and the expiry is the time read plus [t] afterwards, and no wallet is
    touched.  For [t] zero or negative, when the clock does not go back, the
    next time-out step locks every wallet. *)
Theorem set_timeout_cases t σ :
  - 2 ^ 63 ≤ clock σ (reads σ) + t * system_clock_period < 2 ^ 63 - 1 →
  ((set_timeout t σ).1 = Return () ↔
   0 ≤ t ∧ 0 < clock σ (reads σ) + t * system_clock_period) ∧
  ((set_timeout t σ).1 = Return () ∨
   (set_timeout t σ).1 = Throw invalid_lock_timeout_exception) ∧
  timeout (set_timeout t σ).2 = t ∧
  timeout_time (set_timeout t σ).2 =
    clock σ (reads σ) + t * system_clock_period ∧
  wallets (set_timeout t σ).2 = wallets σ ∧
  (t ≤ 0 → clock σ (reads σ) ≤ clock σ (S (reads σ)) →
   all_locked (checked (set_timeout t σ).2)).
Proof.
  intros Hrange. rewrite set_timeout_eq. simpl.
  rewrite time_plus_exact by lia.
  split_and!; try done.
  - unfold system_clock_period.
    do 2 case_bool_decide; simpl; split; try done; lia.
  - destruct (_ && _); [by left|by right].
  - intros Ht Hclock.
    set (σ1 := with_timeout_time _ _).
    assert (overdue σ1) as [Hon Hexp].
    { unfold overdue, timepoint_max. subst σ1. simpl.
      unfold system_clock_period in *. lia. }
    unfold all_locked. rewrite checked_expired by done. simpl.
    apply lock_each_locks.
Qed.

End locking_contract.

(** ** Locking and unlocking one wallet *)

Section one_wallet.
Context `{chain_types} {W F : Type} `{!wallet_api.ops W F}.
Context `{!wallet_api.contract W F}.
Implicit Types (σ : world W F) (ws : list (string * W)) (name : string).

Lemma reopens_may name (r : request) :
  reopens name r = false →
  ¬ may r (by_unlock name) ∧ ¬ may r (by_register name).
Proof.
  intros Hr. split; simpl.
  - intros [p ->]. simpl in Hr. by case_bool_decide.
  - intros [->|[->|[p ->]]]; simpl in Hr; by case_bool_decide.
Qed.

Lemma serve_locked name (rs : list request) σ w :
  Forall (λ r, reopens name r = false) rs →
  find name (wallets σ) = Some w → wallet_api.is_locked w = true →
  find name (wallets (serve rs σ)) = Some w.
Proof.
  intros Hrs. revert σ. induction Hrs as [|r rs Hr _ IH]; intros σ; [done|].
  intros Hfind Hw. cbn [serve foldl]. apply IH; [|done].
  destruct (reopens_may name r Hr) as [Hu Hreg].
  by apply (changes_locked (may r) name w σ); [..|apply perform_changes|].
Qed.

Lemma lock_returned name σ σ1 :
  lock name σ = (Return (), σ1) →
  ∃ w, find name (wallets σ1) = Some w ∧ wallet_api.is_locked w = true.
Proof.
  intros Hlock.
  destruct (find name (wallets (checked σ))) as [w|] eqn:Hfind.
  - destruct (wallet_api.is_locked w) eqn:Hw.
    + rewrite (lock_already_locked _ σ w) in Hlock by done.
      injection Hlock as <-. by exists w.
    + rewrite (lock_unlocked _ _ w) in Hlock by done.
      injection Hlock as <-. exists (wallet_api.lock w). split.
      * simpl. by eapply find_replace.
      * apply wallet_api.lock_locked.
  - by rewrite lock_unregistered in Hlock.
Qed.

(** X16.  A wallet that has been locked stays locked until it is unlocked.
    After [lock(name)] has returned, and after any further requests none of
    which is a [create], an [open] or an [unlock] of that name, whatever the
    clock reads, the name is registered with a locked wallet, and
    [list_keys], [import_key], [remove_key] and [create_key] of that name
    throw [wallet_locked_exception]. *)
Theorem lock_holds name (rs : list request) σ σ1 :
  lock name σ = (Return (), σ1) →
  Forall (λ r, reopens name r = false) rs →
  (∃ w, find name (wallets (serve rs σ1)) = Some w ∧
        wallet_api.is_locked w = true) ∧
  (∀ p k t,
     (list_keys name p (serve rs σ1)).1 = Throw wallet_locked_exception ∧
     (import_key name k (serve rs σ1)).1 = Throw wallet_locked_exception ∧
     (remove_key name p k (serve rs σ1)).1 = Throw wallet_locked_exception ∧
     (create_key name t (serve rs σ1)).1 = Throw wallet_locked_exception).
Proof.
  intros (w & Hfind & Hw)%lock_returned Hrs.
  pose proof (serve_locked name rs σ1 w Hrs Hfind Hw) as Hfind'.
  split; [by exists w|]. intros p k t.
  pose proof (checked_find_locked name _ w Hfind' Hw) as Hc.
  rewrite list_keys_eq. unfold import_key, remove_key, create_key.
  rewrite !bind_check_timeout, !bind_gets, Hc. by rewrite Hw.
Qed.

Lemma unlock_inv name password σ σ1 :
  unlock name password σ = (Return (), σ1) →
  ∃ σ' w, looked_up name σ σ' w ∧ wallet_api.is_locked w = true ∧
          (wallet_api.unlock password w).1 = Return () ∧
          σ1 = with_wallets
                 (replace name (wallet_api.unlock password w).2 (wallets σ'))
                 (with_log (log σ' ++ [ev_unlock name password]) σ').
Proof.
  intros Hu.
  assert (∃ σ' w, looked_up name σ σ' w) as (σ' & w & Hup).
  { destruct (find name (wallets (checked σ))) as [w|] eqn:Hfind.
    - exists (checked σ), w. by left.
    - destruct (open_cases name (checked σ))
        as [[_ Ho]|[(_ & _ & Ho)|(_ & _ & σ' & Ho & Hf)]].
      + unfold unlock in Hu.
        rewrite bind_check_timeout, bind_gets, Hfind in Hu.
        rewrite bool_decide_true in Hu by done. cbv iota in Hu.
        by erewrite bind_Throw in Hu by done.
      + unfold unlock in Hu.
        rewrite bind_check_timeout, bind_gets, Hfind in Hu.
        rewrite bool_decide_true in Hu by done. cbv iota in Hu.
        by erewrite bind_Throw in Hu by done.
      + exists σ', (opened name (checked σ)).2. by right. }
  exists σ', w. split; [done|].
  destruct (wallet_api.is_locked w) eqn:Hw.
  - rewrite (unlock_delegates _ _ _ _ _ Hup Hw) in Hu.
    injection Hu as Hret <-. done.
  - rewrite (unlock_looked_up _ _ _ _ _ Hup), Hw in Hu. done.
Qed.

(** X17.  When [unlock(name, password)] returns, by either way of looking
    the wallet up, the name is registered with an unlocked wallet and the
    password verifies on it.  Unless the time-out expires in between, an
    [unlock] of that name right after, with any password, finds the wallet
    unlocked and throws [wallet_unlocked_exception] without calling the
    wallet's [unlock], in the state the time-out step leaves, and [list_keys]
    with the password returns the keys of the wallet. *)
Theorem unlock_leaves_unlocked name password σ σ1 :
  unlock name password σ = (Return (), σ1) →
  ∃ w, find name (wallets σ1) = Some w ∧
       wallet_api.is_locked w = false ∧
       wallet_api.check_password password w = Return () ∧
       (¬ overdue σ1 →
        (∀ password',
           unlock name password' σ1 =
           (Throw wallet_unlocked_exception, checked σ1)) ∧
        list_keys name password σ1 =
        (Return (wallet_api.list_keys w), checked σ1)).
Proof.
  intros (σ' & w0 & Hup & Hl0 & Hret & ->)%unlock_inv.
  destruct (wallet_api.unlock password w0) as [r w] eqn:Hu.
  simpl in Hret. subst r. simpl.
  pose proof (unlock_returned_verifies _ _ _ Hl0 Hu) as Hc0.
  pose proof (wallet_api.unlock_verified _ _ _ Hl0 Hc0 Hu) as Hw.
  assert (wallet_api.check_password password w = Return ()) as Hc.
  { pose proof (wallet_api.check_password_unlock password password w0) as Hk.
    by rewrite Hu, Hc0 in Hk. }
  assert (find name (wallets σ') = Some w0) as Hfind0.
  { by destruct Hup as [[? ->]|(_ & _ & ?)]. }
  exists w. split_and!; [by eapply find_replace|done..|].
  set (σ1 := with_wallets _ _). intros Hnot.
  assert (find name (wallets (checked σ1)) = Some w) as Hfind.
  { assert (find name (wallets σ1) = Some w) as Hf
      by (by eapply find_replace).
    destruct (checked_cases σ1) as [[_ ->]|[[Hon Ht]|[Hon Ht]]]; [done| |].
    - by destruct Hnot.
    - by rewrite checked_alive. }
  split.
  - intros password'.
    rewrite (unlock_looked_up name password' σ1 (checked σ1) w)
      by (by left). by rewrite Hw.
  - rewrite list_keys_eq, Hfind. by rewrite Hw, Hc.
Qed.

End one_wallet.

(** ** Signing a transaction *)

Section transactions.
Context `{chain_types} {W F : Type} `{!wallet_api.ops W F}.
Implicit Types (σ : world W F) (ws : list (string * W)) (name : string).

Lemma scan_returns d k ws σ : ∃ sig, (scan d k ws σ).1 = Return sig.
Proof.
  destruct (scan_cases d k ws)
    as [Hall|(before & n & w & after & sig & -> & Hb & Hw & Hsig)].
  - rewrite scan_none by done. by eexists.
  - erewrite scan_found by done. by eexists.
Qed.

Lemma sign_keys_shape id keys stxn σ :
  match (sign_keys id keys stxn σ).1 with
  | Return stxn' =>
      trx stxn' = trx stxn ∧
      ∃ sigs, signatures stxn' = signatures stxn ++ sigs ∧
              List.length sigs = List.length keys
  | Throw e => ∃ pk, pk ∈ keys ∧ e = wallet_missing_pub_key_exception pk
  end.
Proof.
  revert stxn σ. induction keys as [|pk keys IH]; intros stxn σ.
  - simpl. split; [done|]. exists []. by rewrite app_nil_r.
  - cbn [sign_keys]. rewrite bind_gets. unfold mbind, M_bind.
    destruct (scan_returns (sig_digest (trx stxn) (signatures stxn) id) pk
                (wallets σ) σ) as [sig Hsig].
    destruct (scan _ _ _ σ) as [r σ']. simpl in Hsig. subst r.
    destruct sig as [sig|].
    + specialize (IH (SignedTransaction _ (trx stxn) (signatures stxn ++ [sig]))
                     σ').
      destruct (sign_keys id keys _ σ').1 as [stxn'|e].
      * destruct IH as [Htrx (sigs & Hsigs & Hlen)]. split; [done|].
        exists (sig :: sigs). simpl in *. rewrite Hsigs, <- app_assoc.
        split; [done|]. by rewrite Hlen.
      * destruct IH as (pk' & Hpk' & ->). exists pk'. split; [by right|done].
    + simpl. exists pk. split; [left|done].
Qed.

(** X18.  What [sign_transaction] gives back.  When it returns, the result
    is the transaction it was given with one signature appended for each
    requested key: the same transaction body, the signatures it had, in
    front and in order, and as many new ones as there are keys.  When it
    throws, the exception is [wallet_missing_pub_key_exception] with one of
    the requested keys.  With no key requested it returns the transaction
    as it was given. *)
Theorem sign_transaction_shape txn keys id σ :
  (∀ stxn, (sign_transaction txn keys id σ).1 = Return stxn →
     trx stxn = trx txn ∧
     ∃ sigs, signatures stxn = signatures txn ++ sigs ∧
             List.length sigs = List.length keys) ∧
  (∀ e, (sign_transaction txn keys id σ).1 = Throw e →
     ∃ pk, pk ∈ keys ∧ e = wallet_missing_pub_key_exception pk) ∧
  sign_transaction txn [] id σ = (Return txn, checked σ).
Proof.
  unfold sign_transaction. rewrite !bind_check_timeout.
  pose proof (sign_keys_shape id keys txn (checked σ)) as Hshape.
  split_and!; [| |done].
  - intros stxn Hret. by rewrite Hret in Hshape.
  - intros e Hthrow. by rewrite Hthrow in Hshape.
Qed.

(** X19.  [sign_transaction] for one key is [sign_digest] of the digest of
    the transaction: it asks the same wallets, ends in the same state, throws
    what [sign_digest] throws, and returns the transaction with the signature
    that [sign_digest] returns appended. *)
Theorem sign_transaction_one_key txn k id σ :
  sign_transaction txn [k] id σ =
  match sign_digest (sig_digest (trx txn) (signatures txn) id) k σ with
  | (Return sig, σ') =>
      (Return (SignedTransaction _ (trx txn) (signatures txn ++ [sig])), σ')
  | (Throw e, σ') => (Throw e, σ')
  end.
Proof.
  unfold sign_transaction, sign_digest.
  rewrite !bind_check_timeout. cbn [sign_keys]. rewrite !bind_gets.
  unfold mbind, M_bind.
  destruct (scan _ _ _ (checked σ)) as [[[sig|]|e] σ']; done.
Qed.

End transactions.

(** ** Names, files and the registry *)

Section files.
Context `{chain_types} {W F : Type} `{!wallet_api.ops W F}.
Implicit Types (σ : world W F) (ws : list (string * W)) (name : string).

Lemma name_alphabet_complete c :
  negb (is_alnum c) && negb (is_any_of "._-" c) = false →
  c ∈ list_ascii_of_string name_alphabet.
Proof.
  intros Hc.
  assert (implb (negb (negb (is_alnum c) && negb (is_any_of "._-" c)))
            (existsb (Ascii.eqb c) (list_ascii_of_string name_alphabet))
          = true) as Himp
    by (by destruct c as [[] [] [] [] [] [] [] []]).
  rewrite Hc in Himp. cbn [negb implb] in Himp.
  apply existsb_exists in Himp as (c' & Hin & ->%Ascii.eqb_eq).
  by apply list_elem_of_In.
Qed.

(** X20.  The names [valid_filename] accepts are exactly the non-empty
    strings of letters, digits, dots, underscores and hyphens: once the test
    of the characters has passed, the comparison with the file name of the
    path never rejects. *)
Theorem valid_filename_iff name :
  valid_filename name = true ↔
  name ≠ "" ∧
  Forall (λ c, c ∈ list_ascii_of_string name_alphabet)
    (list_ascii_of_string name).
Proof.
  split; [|intros [? ?]; by apply valid_filename_accepts].
  unfold valid_filename.
  destruct (String.eqb name "") eqn:Hne; [done|].
  destruct (existsb _ _) eqn:Hbad; [done|]. intros _.
  split; [by apply String.eqb_neq|].
  apply Forall_forall. intros c Hc%list_elem_of_In.
  apply name_alphabet_complete.
  destruct (negb (is_alnum c) && negb (is_any_of "._-" c)) eqn:Hcb; [|done].
  assert (existsb (λ c, negb (is_alnum c) && negb (is_any_of "._-" c))
            (list_ascii_of_string name) = true) as Hex
    by (apply existsb_exists; by exists c).
  congruence.
Qed.

(** X21.  [create] does not overwrite a wallet file and registers nothing
    when it throws.  For a valid name whose file exists it throws
    [wallet_exist_exception] before a key is generated.  When it returns, the
    name was valid, its file did not exist, one key has been generated, and
    the password is the prefix [PW] followed by that key as a string.  When
    it throws, the wallets are those the time-out step left. *)
Theorem create_outcomes name σ :
  (valid_filename name = true → is_Some (files σ !! wallet_path name σ) →
   (create name σ).1 = Throw wallet_exist_exception ∧
   draws (create name σ).2 = draws σ) ∧
  (∀ password, (create name σ).1 = Return password →
     valid_filename name = true ∧ files σ !! wallet_path name σ = None ∧
     password =
       password_prefix +:+ private_key_to_string (entropy σ (draws σ)) ∧
     draws (create name σ).2 = S (draws σ)) ∧
  (∀ e, (create name σ).1 = Throw e →
     wallets (create name σ).2 = wallets (checked σ)).
Proof.
  destruct (checked_frame σ) as (_ & _ & _ & _ & _ & Hdraws).
  destruct (create_cases name σ)
    as [[Hv Heq]|[(Hv & Hf & Heq)|[(Hv & Hf & e' & l & Heq)
                                  |(Hv & Hf & w & l & Heq)]]];
    rewrite Heq; simpl; split_and!; try done; try congruence.
  - intros _ Hsome. rewrite Hf in Hsome. by destruct Hsome.
  - intros _ Hsome. rewrite Hf in Hsome. by destruct Hsome.
  - by intros password [= <-].
Qed.

(** X22.  [open] returns exactly when the name is valid and the wallet file
    loads.  Then the name is registered with the wallet loaded from the file,
    whatever was registered under it before, and every other name is
    registered as the time-out step left it.  When [open] throws, the
    wallets are those the time-out step left.  Either way no file is
    changed. *)
Theorem open_outcomes name σ :
  ((open name σ).1 = Return () ↔
   valid_filename name = true ∧ (opened name σ).1 = true) ∧
  ((open name σ).1 = Return () →
   find name (wallets (open name σ).2) = Some (opened name σ).2 ∧
   ∀ n, n ≠ name →
        find n (wallets (open name σ).2) = find n (wallets (checked σ))) ∧
  (∀ e, (open name σ).1 = Throw e →
        wallets (open name σ).2 = wallets (checked σ)) ∧
  files (open name σ).2 = files σ.
Proof.
  destruct (valid_filename name) eqn:Hname.
  - destruct (opened name σ).1 eqn:Hload.
    + rewrite open_loaded by done. simpl. split_and!; try done.
      * intros _. split; [apply find_emplace, find_erase|].
        intros n Hn. by rewrite find_emplace_ne, find_erase_ne.
      * apply checked_files.
    + rewrite open_missing by done. simpl. split_and!; try done.
      * split; [done|]. by intros [_ ?].
      * apply checked_files.
  - rewrite open_invalid by done. simpl. split_and!; try done.
    + split; [done|]. by intros [? _].
    + apply checked_files.
Qed.

End files.

Section paths.
Context `{chain_types} {W F : Type} `{!wallet_api.ops W F}.
Implicit Types (σ : world W F) (name : string).

Lemma list_ascii_of_string_app (s t : string) :
  list_ascii_of_string (s +:+ t) =
  list_ascii_of_string s ++ list_ascii_of_string t.
Proof. induction s as [|c s IH]; [done|]. simpl. by rewrite IH. Qed.

Lemma string_app_inv_tail (s s' t : string) : s +:+ t = s' +:+ t → s = s'.
Proof.
  intros Heq%(f_equal list_ascii_of_string).
  rewrite !list_ascii_of_string_app in Heq. apply app_inv_tail in Heq.
  rewrite <- (string_of_list_ascii_of_string s).
  rewrite <- (string_of_list_ascii_of_string s'). by rewrite Heq.
Qed.

Lemma string_app_assoc (s t u : string) : s +:+ t +:+ u = (s +:+ t) +:+ u.
Proof.
  induction s as [|a s IH]; [done|].
  change (String a (s +:+ t +:+ u) = String a ((s +:+ t) +:+ u)).
  by rewrite IH.
Qed.

Lemma path_append_prefix (dir : string) :
  ∃ prefix : string, ∀ leaf, path_append dir leaf = prefix +:+ leaf.
Proof.
  unfold path_append.
  destruct (rev (list_ascii_of_string dir)) as [|c cs]; [by exists ""|].
  destruct (is_separator c); [by exists dir|].
  exists (dir +:+ "/"). intros leaf. apply string_app_assoc.
Qed.

(** X23.  Two names have the same wallet file only when they are the same
    name: the path of the file, the directory followed by the name and the
    extension, determines the name. *)
Theorem wallet_path_inj name name' σ :
  wallet_path name σ = wallet_path name' σ → name = name'.
Proof.
  unfold wallet_path.
  destruct (path_append_prefix (dir σ)) as [prefix Hp]. rewrite !Hp.
  intros Heq%strings.String.app_inj. by apply string_app_inv_tail in Heq.
Qed.

End paths.

Section unlocking.
Context `{chain_types} {W F : Type} `{!wallet_api.ops W F}.
Context `{!wallet_api.contract W F}.
Implicit Types (σ : world W F) (ws : list (string * W)) (name : string).

(** X24.  [unlock] with the right password unlocks.  When the wallet that
    [unlock(name, password)] looks up, registered already or opened from its
    file, is locked and the password verifies on it, [unlock] returns, and
    afterwards the name is registered with an unlocked wallet on which the
    password still verifies. *)
Theorem unlock_succeeds name password σ σ' w :
  looked_up name σ σ' w →
  wallet_api.is_locked w = true →
  wallet_api.check_password password w = Return () →
  (unlock name password σ).1 = Return () ∧
  ∃ w', find name (wallets (unlock name password σ).2) = Some w' ∧
        wallet_api.is_locked w' = false ∧
        wallet_api.check_password password w' = Return ().
Proof.
  intros Hup Hl Hc.
  rewrite (unlock_delegates _ _ _ _ _ Hup Hl). simpl.
  pose proof (wallet_api.unlock_returns _ _ Hl Hc) as Hret.
  split; [done|].
  destruct (wallet_api.unlock password w) as [r w'] eqn:Hu.
  simpl in *. subst r. exists w'.
  assert (find name (wallets σ') = Some w) as Hfind.
  { by destruct Hup as [[? ->]|(_ & _ & ?)]. }
  split_and!.
  - by eapply find_replace.
  - by apply (wallet_api.unlock_verified _ _ _ Hl Hc Hu).
  - pose proof (wallet_api.check_password_unlock password password w) as Hk.
    by rewrite Hu, Hc in Hk.
Qed.

End unlocking.

(** ** The order in which the wallets are scanned *)

Section signing_order.
Context `{chain_types} {W F : Type} `{!wallet_api.ops W F}.
Implicit Types (σ : world W F) (ws : list (string * W)) (name : string).
Implicit Types (d : digest_type) (k : public_key_type).

Lemma ltb_trans (a b c : string) :
  String.ltb a b = true → String.ltb b c = true → String.ltb a c = true.
Proof.
  intros Hab Hbc.
  assert (strings.String.le a c) as Hac.
  { transitivity b; unfold strings.String.le; apply Is_true_true;
      unfold String.ltb, String.leb in *;
      [by destruct (String.compare a b)|by destruct (String.compare b c)]. }
  apply Is_true_true in Hac. unfold String.ltb, String.leb in *.
  destruct (String.compare a c) eqn:Hc; [|done|done].
  apply String.compare_eq_iff in Hc. subst c.
  rewrite String.compare_antisym in Hbc.
  by destruct (String.compare a b).
Qed.

Lemma ltb_connex (a b : string) :
  String.ltb a b = false → a ≠ b → String.ltb b a = true.
Proof.
  unfold String.ltb. intros Hab Hne. rewrite String.compare_antisym.
  destruct (String.compare a b) eqn:Hc; [|done|done].
  by apply String.compare_eq_iff in Hc.
Qed.

Lemma ascending_insert_entry name (w : W) ws :
  find name ws = None → ascending ws.*1 →
  ascending (insert_entry name w ws).*1.
Proof.
  induction ws as [|[n w0] ws IH]; [done|]. cbn [find insert_entry].
  destruct (decide (n = name)) as [|Hn]; [done|]. intros Hfind.
  rewrite fmap_cons. cbn [fst ascending]. intros [Hall Hasc].
  destruct (String.ltb name n) eqn:Hlt.
  - rewrite !fmap_cons. cbn [fst ascending]. split_and!; [|done..].
    constructor; [done|].
    eapply Forall_impl; [exact Hall|]. intros m. by apply ltb_trans.
  - rewrite fmap_cons. cbn [fst ascending]. split; [|by apply IH].
    rewrite names_insert_entry. constructor; [|done].
    apply ltb_connex; [done|]. by intros ->.
Qed.

Lemma ascending_filter (P : string → Prop) `{!∀ x, Decision (P x)}
    (l : list string) :
  ascending l → ascending (filter P l).
Proof.
  induction l as [|a l IH]; [done|]. cbn [ascending]. intros [Hall Hasc].
  rewrite filter_cons. destruct (decide (P a)); [|by apply IH].
  cbn [ascending]. split; [|by apply IH].
  apply Forall_forall. intros b [_ Hb]%list_elem_of_filter.
  rewrite Forall_forall in Hall. by apply Hall.
Qed.

Lemma ascending_emplace name (w : W) ws :
  ascending ws.*1 → ascending (emplace name w ws).*1.
Proof.
  intros Hasc. unfold emplace. destruct (find name ws) eqn:Hfind; [done|].
  by apply ascending_insert_entry.
Qed.

Lemma change_ascending l σ σ' :
  change l σ σ' → ascending (names σ) → ascending (names σ').
Proof.
  destruct 1; try done.
  - by rewrite names_checked.
  - unfold names. simpl. by rewrite names_replace.
  - unfold names. simpl. by rewrite names_replace.
  - unfold names. simpl. intros Hasc. apply ascending_emplace.
    rewrite names_erase. by apply ascending_filter.
Qed.

Lemma changes_ascending allowed σ σ' :
  changes allowed σ σ' → ascending (names σ) → ascending (names σ').
Proof.
  induction 1 as [|l σ1 σ2 σ3 _ Hc _ IH]; [done|].
  intros Hasc. by apply IH, (change_ascending l σ1).
Qed.

Lemma ascending_app (l1 l2 : list string) a :
  ascending (l1 ++ a :: l2) →
  Forall (λ b, String.ltb b a = true) l1 ∧
  Forall (λ b, String.ltb a b = true) l2.
Proof.
  induction l1 as [|b l1 IH]; cbn [app ascending].
  - by intros [? _].
  - intros [Hall Hasc]. destruct (IH Hasc) as [H1 H2]. split; [|done].
    constructor; [|done].
    apply Forall_app in Hall as [_ Ha]. by inversion Ha.
Qed.

(** C1, as amended.  Signing scans the wallets in the order in which the
    registry is iterated and skips the locked ones.  For [sign_digest], and
    for each key that [sign_transaction] is asked for in turn: when there is
    a first unlocked wallet whose [try_sign_digest] returns a signature for
    the key, that signature is taken and the only wallets asked are the
    unlocked ones up to and including this one, none after it; when no
    unlocked wallet returns a signature, the method throws
    [wallet_missing_pub_key_exception] with the key.  The conditions are
    those of the state the time-out step leaves.  The order of the registry
    is the ascending order of the names, not the order of registration:
    every request and [own_and_use_wallet] keep the names ascending, and then
    the wallets scanned before a wallet are those with a lesser name. *)
Theorem signing_first_match σ :
  (∀ d k before n w after sig,
     wallets (checked σ) = before ++ (n, w) :: after →
     Forall (gives_nothing d k) before →
     wallet_api.is_locked w = false →
     wallet_api.try_sign_digest d k w = Some sig →
     sign_digest d k σ =
     (Return sig,
      with_log (log (checked σ) ++ asked d k before
                  ++ [ev_try_sign_digest n d k]) (checked σ))) ∧
  (∀ d k,
     Forall (gives_nothing d k) (wallets (checked σ)) →
     sign_digest d k σ =
     (Throw (wallet_missing_pub_key_exception k),
      with_log (log (checked σ) ++ asked d k (wallets (checked σ)))
        (checked σ))) ∧
  (∀ txn keys id,
     sign_transaction txn keys id σ = sign_keys id keys txn (checked σ)) ∧
  (∀ id stxn σ', sign_keys id [] stxn σ' = (Return stxn, σ')) ∧
  (∀ id k keys stxn σ' before n w after sig,
     wallets σ' = before ++ (n, w) :: after →
     Forall (gives_nothing (sig_digest (trx stxn) (signatures stxn) id) k)
       before →
     wallet_api.is_locked w = false →
     wallet_api.try_sign_digest
       (sig_digest (trx stxn) (signatures stxn) id) k w = Some sig →
     sign_keys id (k :: keys) stxn σ' =
     sign_keys id keys
       (SignedTransaction _ (trx stxn) (signatures stxn ++ [sig]))
       (with_log
          (log σ' ++ asked (sig_digest (trx stxn) (signatures stxn) id) k before
             ++ [ev_try_sign_digest n
                   (sig_digest (trx stxn) (signatures stxn) id) k]) σ')) ∧
  (∀ id k keys stxn σ',
     Forall (gives_nothing (sig_digest (trx stxn) (signatures stxn) id) k)
       (wallets σ') →
     sign_keys id (k :: keys) stxn σ' =
     (Throw (wallet_missing_pub_key_exception k),
      with_log
        (log σ' ++ asked (sig_digest (trx stxn) (signatures stxn) id) k
           (wallets σ')) σ')) ∧
  (∀ r : request,
     ascending (names σ) → ascending (names (perform r σ).2)) ∧
  (∀ name w,
     ascending (names σ) →
     ascending (names (own_and_use_wallet name w σ).2)) ∧
  (ascending (names σ) → ascending (names (checked σ))) ∧
  (∀ before n w after,
     ascending (names σ) → wallets σ = before ++ (n, w) :: after →
     Forall (λ i, String.ltb i.1 n = true) before ∧
     Forall (λ i, String.ltb n i.1 = true) after).
Proof.
  split_and!.
  - intros d k before n w after sig Hws Hbefore Hw Hsig.
    unfold sign_digest. rewrite bind_check_timeout, bind_gets, Hws.
    by erewrite bind_Return by by apply scan_found.
  - intros d k Hws.
    unfold sign_digest. rewrite bind_check_timeout, bind_gets.
    by erewrite bind_Return by by apply scan_none.
  - intros txn keys id. unfold sign_transaction.
    by rewrite bind_check_timeout.
  - done.
  - intros id k keys stxn σ' before n w after sig Hws Hbefore Hw Hsig.
    simpl. rewrite bind_gets, Hws.
    by erewrite bind_Return by by apply scan_found.
  - intros id k keys stxn σ' Hws.
    simpl. rewrite bind_gets.
    by erewrite bind_Return by by apply scan_none.
  - intros r. apply (changes_ascending (may r)), perform_changes.
  - intros name w Hasc. unfold own_and_use_wallet. rewrite bind_gets.
    destruct (bool_decide _); [done|]. simpl. by apply ascending_emplace.
  - by rewrite names_checked.
  - intros before n w after Hasc Hws. unfold names in Hasc.
    rewrite Hws, fmap_app, fmap_cons in Hasc.
    apply ascending_app in Hasc as [Hb Ha].
    by rewrite !Forall_fmap in Hb, Ha.
Qed.

End signing_order.

(** ** The further properties on the software wallet *)

Section more_examples.
Import soft.
Local Existing Instance soft_contract.

(** C1 on three wallets that hold the key, in the order of their names:
    the locked one is skipped, the first unlocked one signs, the other one is
    not asked. *)
Lemma signing_first_match_witness :
  sign_digest "d" "K" keyed =
  (Return "p1:d", with_log [ev_try_sign_digest "b" "d" "K"] keyed).
Proof.
  etrans.
  - apply (proj1 (signing_first_match keyed) "d" "K"
             [("a", holder true "p0")] "b" (holder false "p1")
             [("c", holder false "p2")] "p1:d").
    + reflexivity.
    + repeat constructor.
    + reflexivity.
    + reflexivity.
  - vm_compute. reflexivity.
Defined.

(** C1 as stated fails on a manager in which the wallet [b] is registered
    before the wallet [a]: both are unlocked and both give a signature for
    the key, the registry is iterated with [a] first, and [sign_digest]
    returns the signature of [a], registered second, without asking [b]. *)
Lemma signing_not_in_registration_order :
  own_and_use_wallet "b" (holder false "p2") fresh =
    (Return (), with_wallets [("b", holder false "p2")] fresh) ∧
  own_and_use_wallet "a" (holder false "p1")
      (with_wallets [("b", holder false "p2")] fresh) =
    (Return (), b_then_a) ∧
  names b_then_a = ["a"; "b"] ∧
  wallet_api.is_locked (holder false "p2") = false ∧
  wallet_api.try_sign_digest ("d" : string) ("K" : string) (holder false "p2")
    = Some ("p2:d" : string) ∧
  sign_digest "d" "K" b_then_a =
    (Return "p1:d", with_log [ev_try_sign_digest "a" "d" "K"] b_then_a) ∧
  sign_digest "d" "K" b_then_a ≠
    (Return "p2:d", with_log [ev_try_sign_digest "b" "d" "K"] b_then_a).
Proof.
  split_and!; [vm_compute; reflexivity..|].
  intros Heq. apply (f_equal fst) in Heq. vm_compute in Heq.
  discriminate Heq.
Qed.

(** X2 on the manager whose wallet [a] is locked: importing a key into it
    throws and leaves the wallet as it was. *)
Lemma locked_wallet_untouched_witness :
  find "a" (wallets (perform (req_import_key "a" "k9") resting).2) =
  Some (Wallet true "pw" [] "").
Proof.
  apply (locked_wallet_untouched (req_import_key "a" "k9") "a"
           (Wallet true "pw" [] "") resting);
    [reflexivity|reflexivity|discriminate|discriminate|intros p; discriminate].
Defined.

(** X4 on the manager with no wallet, whose time-out is off, and a
    [create]. *)
Lemma disabled_stays_disabled_witness :
  timeout_time (perform (req_create "alice") fresh).2 = timepoint_max ∧
  reads (perform (req_create "alice") fresh).2 = reads fresh ∧
  timeout (perform (req_create "alice") fresh).2 = timeout fresh.
Proof.
  apply (disabled_stays_disabled (req_create "alice") fresh). reflexivity.
Defined.

(** X5 on the three wallets: [lock] of [a] leaves [b] alone. *)
Lemma other_wallets_kept_witness :
  find "b" (wallets (perform (req_lock "a") holders).2) =
    find "b" (wallets holders) ∨
  find "b" (wallets (perform (req_lock "a") holders).2) =
    locked_copy <$> find "b" (wallets holders).
Proof.
  apply (other_wallets_kept (req_lock "a") "b" holders). discriminate.
Defined.

(** X6 on the three wallets and [list_keys]. *)
Lemma observers_keep_state_witness :
  (perform (req_list_keys "a" "pw") holders).2 = checked holders.
Proof.
  apply (proj2 (observers_keep_state (req_list_keys "a" "pw") holders
                  eq_refl)); discriminate.
Defined.


(** X13 on the three wallets, two of which are unlocked. *)
Lemma lock_all_locks_witness :
  all_locked (lock_all holders).2 ∧
  lock_all (lock_all holders).2 = (Return (), (lock_all holders).2).
Proof.
  split.
  - exact (proj1 (proj2 (lock_all_locks holders))).
  - exact (proj2 (proj2 (proj2 (proj2 (proj2 (proj2
             (lock_all_locks holders))))))).
Defined.

(** X14 on the manager whose time-out of five seconds expired at second 5,
    with the clock at second 10. *)
Lemma expiry_locks_all_witness :
  all_locked (checked (expired 5)) ∧
  list_wallets (expired 5) = (Return ["a"], checked (expired 5)).
Proof.
  destruct (expiry_locks_all (expired 5)) as (Hall & _ & _ & _ & Hlist).
  - split; vm_compute; discriminate.
  - split; [exact Hall|exact Hlist].
Defined.

(** X15 on a time-out of minus one second, set at second 10 with the wallet
    [a] unlocked: it is refused, and the step at second 20 locks [a]. *)
Lemma set_timeout_cases_witness :
  (set_timeout (-1) keyless).1 = Throw invalid_lock_timeout_exception ∧
  all_locked (checked (set_timeout (-1) keyless).2).
Proof.
  destruct (set_timeout_cases (-1) keyless) as (_ & _ & _ & _ & _ & Hall).
  - vm_compute. split; [discriminate|reflexivity].
  - split; [reflexivity|]. apply Hall; [lia|vm_compute; discriminate].
Defined.

(** X16 on the manager with the wallet [a] unlocked: after [lock] and three
    requests, one of which would import a key into [a], it is locked. *)
Lemma lock_holds_witness :
  ∃ w, find "a" (wallets (serve three_requests (lock "a" keyless).2)) = Some w ∧
       wallet_api.is_locked w = true.
Proof.
  apply (lock_holds "a" three_requests keyless (lock "a" keyless).2).
  - vm_compute. reflexivity.
  - repeat constructor.
Defined.

(** X17 on the manager whose wallet [a] is locked and whose time-out is
    off: after the [unlock] the time-out is not overdue, a second [unlock]
    throws and [list_keys] returns the keys of the wallet. *)
Lemma unlock_leaves_unlocked_witness :
  ¬ overdue (unlock "a" "pw" dormant).2 ∧
  ∃ w, find "a" (wallets (unlock "a" "pw" dormant).2) = Some w ∧
       wallet_api.is_locked w = false ∧
       wallet_api.check_password "pw" w = Return () ∧
       (∀ password',
          unlock "a" password' (unlock "a" "pw" dormant).2 =
          (Throw wallet_unlocked_exception,
           checked (unlock "a" "pw" dormant).2)) ∧
       list_keys "a" "pw" (unlock "a" "pw" dormant).2 =
       (Return (wallet_api.list_keys w), checked (unlock "a" "pw" dormant).2).
Proof.
  assert (¬ overdue (unlock "a" "pw" dormant).2) as Hnot.
  { intros [Hon _]. apply Hon. reflexivity. }
  split; [exact Hnot|].
  destruct (unlock_leaves_unlocked "a" "pw" dormant
              (unlock "a" "pw" dormant).2)
    as (w & Hfind & Hw & Hc & Hrest).
  - vm_compute. reflexivity.
  - exists w. destruct (Hrest Hnot) as [Hagain Hkeys]. by split_and!.
Defined.

(** X23 on the wallet [alice]. *)
Lemma wallet_path_inj_witness :
  wallet_path "alice" fresh = "/w/alice.wallet" ∧ "alice" = "alice".
Proof.
  split; [reflexivity|].
  apply (wallet_path_inj "alice" "alice" fresh). reflexivity.
Defined.

(** X24 on the manager with the file of [bob] and no wallet: [unlock] opens
    the wallet and unlocks it. *)
Lemma unlock_succeeds_witness :
  (unlock "bob" "secret" stored).1 = Return () ∧
  ∃ w', find "bob" (wallets (unlock "bob" "secret" stored).2) = Some w' ∧
        wallet_api.is_locked w' = false ∧
        wallet_api.check_password "secret" w' = Return ().
Proof.
  apply (unlock_succeeds "bob" "secret" stored
           (open "bob" (check_timeout stored).2).2
           (Wallet true "secret" [("K", "p")] "/w/bob.wallet")).
  - right. split_and!; vm_compute; reflexivity.
  - reflexivity.
  - reflexivity.
Defined.

End more_examples.
